(** * Lead qualification and campaign orchestration: a shallow embedding

    The React components [EmailCampaigns], [ContactManagement] and
    [LeadDiscovery] are embedded as state records with handlers in a small
    state-and-effect monad.  Every [useState] cell is a record field, every
    [toast] call and every [fetch] call is logged as an effect, and the
    reply of the backend is an input of the handler (a function from the
    request to its outcome).

    Modelling conventions:
    - JavaScript strings are [string]; [toLowerCase] is modelled on ASCII
      letters.
    - A JSON field that may be missing, [null] or [undefined] is an
      [option]; a field used only for its truthiness is a [bool].
    - Identifiers are integers compared with [===].
    - A finite JSON number used as a score is a rational: the sign of the
      difference of two finite doubles is the sign of their exact
      difference, which is all the comparator of [sort] observes.
    - Arrays that the code mutates in place ([Array.prototype.sort]) live
      in a store indexed by references, so that aliasing is visible. *)

From Stdlib Require Import ZArith QArith Lqa String Ascii List Permutation Sorted Lia.
From stdpp Require Import gmap strings.
Close Scope Q_scope.
Local Open Scope string_scope.
Local Open Scope list_scope.

(** ** JavaScript primitives *)

Definition Id := Z.
Bind Scope Z_scope with Id.

(** [a === b] on identifiers. *)
Definition strict_eq (a b : Id) : bool := Z.eqb a b.

Definition lower_ascii (c : ascii) : ascii :=
  let n := nat_of_ascii c in
  if (Nat.leb 65 n && Nat.leb n 90)%bool then ascii_of_nat (n + 32) else c.

(** [s.toLowerCase()] *)
Fixpoint toLowerCase (s : string) : string :=
  match s with
  | EmptyString => EmptyString
  | String c r => String (lower_ascii c) (toLowerCase r)
  end.

Fixpoint startsWith (s p : string) : bool :=
  match p, s with
  | EmptyString, _ => true
  | String a p', String b s' => (Ascii.eqb a b && startsWith s' p')%bool
  | String _ _, EmptyString => false
  end.

(** [s.includes(needle)] *)
Fixpoint includes (s needle : string) : bool :=
  (startsWith s needle ||
   match s with
   | EmptyString => false
   | String _ r => includes r needle
   end)%bool.

(** Truthiness of a string: only the empty string is falsy. *)
Definition truthy_str (s : string) : bool := negb (String.eqb s "").

(** [o || d] where [o] is a possibly missing string. *)
Definition or_str (o : option string) (d : string) : string :=
  match o with
  | Some s => if truthy_str s then s else d
  | None => d
  end.

(** [o || d] where [o] is a possibly missing number: [0] is falsy. *)
Definition or_num (o : option Q) (d : Q) : Q :=
  match o with
  | Some q => if Qeq_bool q 0 then d else q
  | None => d
  end.

(** [o || []] where [o] is a possibly missing array (an empty array is
    truthy). *)
Definition or_nil {A} (o : option (list A)) : list A :=
  match o with
  | Some l => l
  | None => []
  end.

(** ** Data model

    The records hold the fields that the handlers read or copy; fields that
    are only displayed ([contacted], [contact_date], [employee_count],
    [personalization_score], ...) are left out. *)

Module Contact.
Record t := mk {
  id : Id;
  first_name : option string;
  last_name : option string;
  email : option string;
  job_title : option string;
  company_name : option string;
  company_domain : option string;
  company_trigger : option string;
  company_industry : option string;
  decision_maker_score : option Q;
  email_validated : bool;
  email_validation_result : option string
}.
End Contact.

Module Company.
Record t := mk {
  name : option string;
  domain : option string;
  industry : option string;
  trigger_type : option string;
  top_contacts : option (list Contact.t)
}.
End Company.

Module GeneratedEmail.
Record t := mk {
  contact_id : Id;
  contact_name : option string;
  company_name : option string;
  subject : option string;
  body : option string
}.
End GeneratedEmail.

Module OutgoingEmail.
Record t := mk {
  contact_id : Id;
  to_email : option string;
  subject : option string;
  body : option string
}.
End OutgoingEmail.

(** ** Requests, replies and effects *)

Inductive Request :=
| PostFilterContacts (min_decision_score : Q) (email_validation_results : list string)
| PostSendEmails (emails : list OutgoingEmail.t) (test_mode : bool)
| GetCompanies (limit : Z)
| PostValidateContacts (contact_ids : list Id)
| PostDiscover (trigger_types : list string) (limit_per_type : Z).

(** The parsed body of a reply; [success] is the truthiness of
    [data.success]. *)
Record ResponseData := {
  success : bool;
  message : option string;
  error : option string;
  data_contacts : option (list Contact.t);
  data_companies : option (list Company.t)
}.

(** [NetworkFailure]: [fetch] or [response.json()] rejects, so control
    reaches the [catch] block.  [Reply ok data]: [response.ok] and the parsed
    body. *)
Inductive Outcome :=
| NetworkFailure
| Reply (ok : bool) (data : ResponseData).

Definition Net := Request → Outcome.

Record ToastMsg := {
  title : string;
  description : option string;
  destructive : bool
}.

Inductive Effect :=
| Toast (t : ToastMsg)
| Fetch (r : Request)
| ConsoleError (msg : string).

Definition is_fetch (e : Effect) : bool :=
  match e with
  | Fetch _ => true
  | _ => false
  end.

(** ** The handler monad: state passing with an effect log *)

Definition M (S A : Type) : Type := S → A * S * list Effect.

Global Instance M_ret {S} : MRet (M S) := λ A x s, (x, s, []).

Global Instance M_bind {S} : MBind (M S) := λ A B f m s,
  let '(a, s1, e1) := m s in
  let '(b, s2, e2) := f a s1 in
  (b, s2, e1 ++ e2).

Definition get {S} : M S S := λ s, (s, s, []).
Definition modify {S} (f : S → S) : M S unit := λ s, (tt, f s, []).
Definition emit {S} (e : Effect) : M S unit := λ s, (tt, s, [e]).
Definition toast {S} (t : ToastMsg) : M S unit := emit (Toast t).

(** [await fetch(r)] followed by [await response.json()]. *)
Definition fetch {S} (net : Net) (r : Request) : M S Outcome :=
  emit (Fetch r);; mret (net r).

Definition skip {S} : M S unit := mret tt.

Definition final_state {S A} (r : A * S * list Effect) : S := snd (fst r).
Definition effects {S A} (r : A * S * list Effect) : list Effect := snd r.

Definition error_toast (d : string) : ToastMsg :=
  {| title := "Error"; description := Some d; destructive := true |}.

(** ** EmailCampaigns *)

Module EmailCampaigns.

Record State := mkState {
  contacts : list Contact.t;
  selectedContacts : list Id;
  generatedEmails : list GeneratedEmail.t;
  selectedTemplate : string;
  isGenerating : bool;
  isSending : bool;
  testMode : bool
}.

Definition initial : State :=
  {| contacts := []; selectedContacts := []; generatedEmails := [];
     selectedTemplate := "hiring"; isGenerating := false;
     isSending := false; testMode := true |}.

Definition setContacts (v : list Contact.t) : M State unit :=
  modify (λ s, mkState v (selectedContacts s) (generatedEmails s)
                 (selectedTemplate s) (isGenerating s) (isSending s) (testMode s)).
Definition setSelectedContacts (v : list Id) : M State unit :=
  modify (λ s, mkState (contacts s) v (generatedEmails s)
                 (selectedTemplate s) (isGenerating s) (isSending s) (testMode s)).
Definition setGeneratedEmails (v : list GeneratedEmail.t) : M State unit :=
  modify (λ s, mkState (contacts s) (selectedContacts s) v
                 (selectedTemplate s) (isGenerating s) (isSending s) (testMode s)).
Definition setIsSending (v : bool) : M State unit :=
  modify (λ s, mkState (contacts s) (selectedContacts s) (generatedEmails s)
                 (selectedTemplate s) (isGenerating s) v (testMode s)).
Definition setTestMode (v : bool) : M State unit :=
  modify (λ s, mkState (contacts s) (selectedContacts s) (generatedEmails s)
                 (selectedTemplate s) (isGenerating s) (isSending s) v).

Definition filterContactsRequest : Request :=
  PostFilterContacts (1 # 2) ["valid"; "risky"].

(** The continuation after the [await] only writes [contacts]; it is run
    here together with the request. *)
Definition fetchContacts (net : Net) : M State unit :=
  r ← fetch net filterContactsRequest;
  match r with
  | Reply true data =>
      if success data then setContacts (or_nil (data_contacts data)) else skip
  | Reply false _ => skip
  | NetworkFailure => emit (ConsoleError "Error fetching contacts:")
  end.

(** [contacts.find(c => c.id === email.contact_id)?.email] *)
Definition lookupEmail (cs : list Contact.t) (cid : Id) : option string :=
  find (λ c, strict_eq (Contact.id c) cid) cs ≫= Contact.email.

Definition emailsToSend (s : State) : list OutgoingEmail.t :=
  map (λ email,
         {| OutgoingEmail.contact_id := GeneratedEmail.contact_id email;
            OutgoingEmail.to_email :=
              lookupEmail (contacts s) (GeneratedEmail.contact_id email);
            OutgoingEmail.subject := GeneratedEmail.subject email;
            OutgoingEmail.body := GeneratedEmail.body email |})
      (generatedEmails s).

Definition sendEmails (net : Net) : M State unit :=
  s ← get;
  if Nat.eqb (length (generatedEmails s)) 0 then
    toast (error_toast "Please generate emails first")
  else
    setIsSending true;;
    r ← fetch net (PostSendEmails (emailsToSend s) (testMode s));
    match r with
    | Reply _ data =>
        if success data then
          toast {| title := "Success";
                   description :=
                     if testMode s then Some "Test completed successfully"
                     else message data;
                   destructive := false |};;
          if negb (testMode s) then
            (* Refresh contacts to show updated status *)
            fetchContacts net;;
            setGeneratedEmails [];;
            setSelectedContacts []
          else skip
        else
          toast (error_toast (or_str (error data) "Failed to send emails"))
    | NetworkFailure => toast (error_toast "Network error occurred")
    end;;
    setIsSending false.

(** The reply of the transport to the send request reports success. *)
Definition send_succeeds (net : Net) (s : State) : Prop :=
  ∃ ok data,
    net (PostSendEmails (emailsToSend s) (testMode s)) = Reply ok data
    ∧ success data = true.

End EmailCampaigns.


(** ** Array.prototype.sort

    ECMAScript (2019 and later) requires [sort] to be stable and, for a
    consistent comparator [cmp], to leave [a] before [b] whenever
    [cmp a b < 0].  A stable sort is determined by these two requirements;
    it is given here by insertion from the right, where an element is placed
    in front of the first element it does not have to follow. *)

Fixpoint sort_insert {A} (cmp : A → A → Q) (x : A) (l : list A) : list A :=
  match l with
  | [] => [x]
  | y :: l' => if Qle_bool (cmp x y) 0 then x :: l else y :: sort_insert cmp x l'
  end.

Definition js_sort {A} (cmp : A → A → Q) (l : list A) : list A :=
  foldr (sort_insert cmp) [] l.

(** ** ContactManagement *)

Module ContactManagement.

(** A reference to an array of contacts in the store. *)
Abbreviation ref := positive.

Record State := mkState {
  store : gmap positive (list Contact.t);
  contacts : ref;
  filteredContacts : ref;
  selectedContacts : list Id;
  loading : bool;
  validating : bool;
  searchTerm : string;
  triggerFilter : string;
  validationFilter : string
}.

Definition setStore (v : gmap positive (list Contact.t)) : M State unit :=
  modify (λ s, mkState v (contacts s) (filteredContacts s) (selectedContacts s)
                 (loading s) (validating s) (searchTerm s) (triggerFilter s)
                 (validationFilter s)).
Definition setContactsRef (v : ref) : M State unit :=
  modify (λ s, mkState (store s) v (filteredContacts s) (selectedContacts s)
                 (loading s) (validating s) (searchTerm s) (triggerFilter s)
                 (validationFilter s)).
Definition setFilteredContacts (v : ref) : M State unit :=
  modify (λ s, mkState (store s) (contacts s) v (selectedContacts s)
                 (loading s) (validating s) (searchTerm s) (triggerFilter s)
                 (validationFilter s)).
Definition setSelectedContacts (v : list Id) : M State unit :=
  modify (λ s, mkState (store s) (contacts s) (filteredContacts s) v
                 (loading s) (validating s) (searchTerm s) (triggerFilter s)
                 (validationFilter s)).
Definition setLoading (v : bool) : M State unit :=
  modify (λ s, mkState (store s) (contacts s) (filteredContacts s) (selectedContacts s)
                 v (validating s) (searchTerm s) (triggerFilter s)
                 (validationFilter s)).
Definition setValidating (v : bool) : M State unit :=
  modify (λ s, mkState (store s) (contacts s) (filteredContacts s) (selectedContacts s)
                 (loading s) v (searchTerm s) (triggerFilter s)
                 (validationFilter s)).
Definition setSearchTerm (v : string) : M State unit :=
  modify (λ s, mkState (store s) (contacts s) (filteredContacts s) (selectedContacts s)
                 (loading s) (validating s) v (triggerFilter s)
                 (validationFilter s)).
Definition setTriggerFilter (v : string) : M State unit :=
  modify (λ s, mkState (store s) (contacts s) (filteredContacts s) (selectedContacts s)
                 (loading s) (validating s) (searchTerm s) v
                 (validationFilter s)).
Definition setValidationFilter (v : string) : M State unit :=
  modify (λ s, mkState (store s) (contacts s) (filteredContacts s) (selectedContacts s)
                 (loading s) (validating s) (searchTerm s) (triggerFilter s) v).

(** *** Arrays in the store *)

(** The elements of the array behind a reference. *)
Definition elems (h : gmap positive (list Contact.t)) (r : ref) : list Contact.t :=
  default [] (h !! r).

Definition read (r : ref) : M State (list Contact.t) :=
  s ← get; mret (elems (store s) r).

(** A new array: a reference that the store does not hold yet. *)
Definition alloc (v : list Contact.t) : M State ref :=
  s ← get;
  let r := fresh (dom (store s)) in
  setStore (<[r := v]> (store s));;
  mret r.

(** [arr.filter(p)]: a new array, [arr] is left as it is. *)
Definition array_filter (p : Contact.t → bool) (arr : ref) : M State ref :=
  v ← read arr; alloc (List.filter p v).

(** [arr.sort(cmp)]: sorts the array behind [arr] in place. *)
Definition array_sort (cmp : Contact.t → Contact.t → Q) (arr : ref) : M State unit :=
  s ← get;
  setStore (<[arr := js_sort cmp (elems (store s) arr)]> (store s)).

(** The two [useState([])] calls create two distinct empty arrays. *)
Definition initial : State :=
  {| store := <[2%positive := []]> (<[1%positive := []]> ∅);
     contacts := 1%positive; filteredContacts := 2%positive;
     selectedContacts := []; loading := true; validating := false;
     searchTerm := ""; triggerFilter := "all"; validationFilter := "all" |}.

(** *** filterContacts *)

(** [field?.toLowerCase().includes(term.toLowerCase())], where a missing
    field gives [undefined], which is falsy. *)
Definition lowerIncludes (field : option string) (term : string) : bool :=
  match field with
  | Some v => includes (toLowerCase v) (toLowerCase term)
  | None => false
  end.

Definition matchesSearch (term : string) (contact : Contact.t) : bool :=
  (lowerIncludes (Contact.first_name contact) term
   || lowerIncludes (Contact.last_name contact) term
   || lowerIncludes (Contact.email contact) term
   || lowerIncludes (Contact.company_name contact) term)%bool.

(** [field === value] for a possibly missing string field. *)
Definition field_is (field : option string) (value : string) : bool :=
  match field with
  | Some v => String.eqb v value
  | None => false
  end.

Definition matchesTrigger (value : string) (contact : Contact.t) : bool :=
  field_is (Contact.company_trigger contact) value.

Definition matchesResult (value : string) (contact : Contact.t) : bool :=
  field_is (Contact.email_validation_result contact) value.

Definition score (contact : Contact.t) : Q :=
  or_num (Contact.decision_maker_score contact) 0.

(** [(a, b) => (b.decision_maker_score || 0) - (a.decision_maker_score || 0)] *)
Definition compareScore (a b : Contact.t) : Q := (score b - score a)%Q.

Definition filterContacts : M State unit :=
  s ← get;
  let filtered := contacts s in
  (* Search filter *)
  filtered ←
    (if truthy_str (searchTerm s)
     then array_filter (matchesSearch (searchTerm s)) filtered
     else mret filtered);
  (* Trigger filter *)
  filtered ←
    (if negb (String.eqb (triggerFilter s) "all")
     then array_filter (matchesTrigger (triggerFilter s)) filtered
     else mret filtered);
  (* Validation filter *)
  filtered ←
    (if negb (String.eqb (validationFilter s) "all") then
       if String.eqb (validationFilter s) "validated" then
         array_filter Contact.email_validated filtered
       else if String.eqb (validationFilter s) "unvalidated" then
         array_filter (λ contact, negb (Contact.email_validated contact)) filtered
       else
         array_filter (matchesResult (validationFilter s)) filtered
     else mret filtered);
  (* Sort by decision maker score *)
  array_sort compareScore filtered;;
  setFilteredContacts filtered.

(** The contacts behind the state's references. *)
Definition contactList (s : State) : list Contact.t := elems (store s) (contacts s).
Definition filteredList (s : State) : list Contact.t := elems (store s) (filteredContacts s).

(** The criteria of a state as predicates on a contact: each one is passed
    by every contact when its filter is not active. *)
Definition passesSearch (s : State) (contact : Contact.t) : bool :=
  if truthy_str (searchTerm s) then matchesSearch (searchTerm s) contact else true.

Definition passesTrigger (s : State) (contact : Contact.t) : bool :=
  if String.eqb (triggerFilter s) "all" then true
  else matchesTrigger (triggerFilter s) contact.

Definition passesValidation (s : State) (contact : Contact.t) : bool :=
  if String.eqb (validationFilter s) "all" then true
  else if String.eqb (validationFilter s) "validated" then
    Contact.email_validated contact
  else if String.eqb (validationFilter s) "unvalidated" then
    negb (Contact.email_validated contact)
  else matchesResult (validationFilter s) contact.

Definition keeps (s : State) (contact : Contact.t) : bool :=
  (passesSearch s contact && passesTrigger s contact && passesValidation s contact)%bool.

(** No criterion is active: [filtered] is still the [contacts] array when
    it is sorted. *)
Definition noFilter (s : State) : bool :=
  (negb (truthy_str (searchTerm s))
   && String.eqb (triggerFilter s) "all"
   && String.eqb (validationFilter s) "all")%bool.

(** *** fetchContacts *)

Definition companiesRequest : Request := GetCompanies 100.

(** [{...contact, company_name: company.name, company_domain: company.domain,
      company_trigger: company.trigger_type, company_industry: company.industry}] *)
Definition withCompany (company : Company.t) (contact : Contact.t) : Contact.t :=
  {| Contact.id := Contact.id contact;
     Contact.first_name := Contact.first_name contact;
     Contact.last_name := Contact.last_name contact;
     Contact.email := Contact.email contact;
     Contact.job_title := Contact.job_title contact;
     Contact.company_name := Company.name company;
     Contact.company_domain := Company.domain company;
     Contact.company_trigger := Company.trigger_type company;
     Contact.company_industry := Company.industry company;
     Contact.decision_maker_score := Contact.decision_maker_score contact;
     Contact.email_validated := Contact.email_validated contact;
     Contact.email_validation_result := Contact.email_validation_result contact |}.

(** Flatten contacts from all companies; [company.top_contacts?.forEach]
    skips a company without the field. *)
Definition flattenContacts (companies : list Company.t) : list Contact.t :=
  flat_map (λ company, map (withCompany company) (or_nil (Company.top_contacts company)))
           companies.

Definition fetchFailed : M State unit :=
  emit (ConsoleError "Error fetching contacts:");;
  toast (error_toast "Failed to fetch contacts").

(** A missing [data.companies] makes [forEach] throw, which the [catch]
    block handles.  The continuation after the [await] is run here together
    with the request. *)
Definition fetchContacts (net : Net) : M State unit :=
  r ← fetch net companiesRequest;
  match r with
  | Reply true data =>
      if success data then
        match data_companies data with
        | Some companies =>
            allContacts ← alloc (flattenContacts companies);
            setContactsRef allContacts
        | None => fetchFailed
        end
      else skip
  | Reply false _ => skip
  | NetworkFailure => fetchFailed
  end;;
  setLoading false.

(** *** validateSelectedContacts *)

Definition validateSelectedContacts (net : Net) : M State unit :=
  s ← get;
  if Nat.eqb (length (selectedContacts s)) 0 then
    toast (error_toast "Please select contacts to validate")
  else
    setValidating true;;
    r ← fetch net (PostValidateContacts (selectedContacts s));
    match r with
    | Reply _ data =>
        if success data then
          toast {| title := "Success"; description := message data;
                   destructive := false |};;
          fetchContacts net;; (* Refresh the data *)
          setSelectedContacts []
        else
          toast (error_toast (or_str (error data) "Failed to validate contacts"))
    | NetworkFailure => toast (error_toast "Network error occurred")
    end;;
    setValidating false.

(** The reply to the validation request of a state. *)
Definition validate_reply (net : Net) (s : State) : Outcome :=
  net (PostValidateContacts (selectedContacts s)).

Definition reports_success (o : Outcome) : bool :=
  match o with
  | Reply _ data => success data
  | NetworkFailure => false
  end.

(** *** Selection *)

(** [selectedContacts.includes(id)] *)
Definition isSelected (s : State) (i : Id) : bool :=
  existsb (strict_eq i) (selectedContacts s).

Definition handleSelectContact (contactId : Id) (checked : bool) : M State unit :=
  s ← get;
  if checked then
    setSelectedContacts (selectedContacts s ++ [contactId])
  else
    setSelectedContacts (List.filter (λ i, negb (strict_eq i contactId)) (selectedContacts s)).

Definition handleSelectAll (checked : bool) : M State unit :=
  s ← get;
  if checked then
    setSelectedContacts (map Contact.id (filteredList s))
  else
    setSelectedContacts [].

(** The [checked] property of the select-all checkbox:
    [selectedContacts.length === filteredContacts.length
     && filteredContacts.length > 0]. *)
Definition selectAllChecked (s : State) : bool :=
  (Nat.eqb (length (selectedContacts s)) (length (filteredList s))
   && Nat.ltb 0 (length (filteredList s)))%bool.

(** The identifiers of the rows on display. *)
Definition visibleIds (s : State) : list Id := map Contact.id (filteredList s).

(** *** Rendering: the effect on [contacts, searchTerm, triggerFilter,
    validationFilter], and the events of the page *)

Definition depsChanged (prev s : State) : bool :=
  negb (Pos.eqb (contacts prev) (contacts s)
        && String.eqb (searchTerm prev) (searchTerm s)
        && String.eqb (triggerFilter prev) (triggerFilter s)
        && String.eqb (validationFilter prev) (validationFilter s))%bool.

(** A handler followed by the render it causes: the effect runs
    [filterContacts] when one of its dependencies has changed. *)
Definition dispatch (handler : M State unit) : M State unit :=
  prev ← get;
  handler;;
  s ← get;
  if depsChanged prev s then filterContacts else skip.

(** The first render runs both effects; the page shows a spinner until
    [fetchContacts] has set [loading] to false. *)
Definition mount (net : Net) : M State unit :=
  filterContacts;; dispatch (fetchContacts net).

Inductive Event :=
| TypeSearch (value : string)
| PickTrigger (value : string)
| PickValidation (value : string)
| ClearFilters
| ClickContact (contactId : Id)
| ClickSelectAll
| ClickValidate (net : Net).

(** A checkbox reports the negation of the [checked] property it shows; a
    row can be clicked only when it is on display. *)
Definition handle (e : Event) : M State unit :=
  match e with
  | TypeSearch v => dispatch (setSearchTerm v)
  | PickTrigger v => dispatch (setTriggerFilter v)
  | PickValidation v => dispatch (setValidationFilter v)
  | ClearFilters =>
      dispatch (setSearchTerm "";; setTriggerFilter "all";; setValidationFilter "all")
  | ClickContact i =>
      s ← get;
      if existsb (strict_eq i) (visibleIds s)
      then dispatch (handleSelectContact i (negb (isSelected s i)))
      else skip
  | ClickSelectAll =>
      s ← get;
      dispatch (handleSelectAll (negb (selectAllChecked s)))
  | ClickValidate net => dispatch (validateSelectedContacts net)
  end.

Definition step (s : State) (e : Event) : State := final_state (handle e s).

Definition mounted (net : Net) : State := final_state (mount net initial).

Definition run (net : Net) (events : list Event) : State :=
  fold_left step events (mounted net).

(** The states the page can be in: mounted with some backend, then any
    sequence of events. *)
Definition reachable (s : State) : Prop :=
  ∃ net events, s = run net events.

End ContactManagement.

(** ** parseInt

    [parseInt(s)] without a radix: leading white space is skipped, a sign is
    read, a [0x] or [0X] prefix selects radix 16, and the longest prefix of
    digits is the value; [None] is [NaN].  Values are exact integers (the
    rounding of a double above 2^53 is not modelled). *)

Definition is_space (c : ascii) : bool :=
  let n := nat_of_ascii c in
  (Nat.eqb n 32 || (Nat.leb 9 n && Nat.leb n 13))%bool.

Fixpoint trimStart (s : string) : string :=
  match s with
  | EmptyString => EmptyString
  | String c r => if is_space c then trimStart r else s
  end.

Definition digit_value (c : ascii) : option Z :=
  let n := nat_of_ascii c in
  if (Nat.leb 48 n && Nat.leb n 57)%bool then Some (Z.of_nat n - 48)%Z
  else if (Nat.leb 97 n && Nat.leb n 122)%bool then Some (Z.of_nat n - 87)%Z
  else if (Nat.leb 65 n && Nat.leb n 90)%bool then Some (Z.of_nat n - 55)%Z
  else None.

Fixpoint parse_digits (radix : Z) (acc : option Z) (s : string) : option Z :=
  match s with
  | EmptyString => acc
  | String c r =>
      match digit_value c with
      | Some d =>
          if (d <? radix)%Z
          then parse_digits radix (Some (radix * default 0%Z acc + d)%Z) r
          else acc
      | None => acc
      end
  end.

Definition parseInt (s : string) : option Z :=
  let s := trimStart s in
  let '(sign, s) :=
    match s with
    | String "-" r => ((-1)%Z, r)
    | String "+" r => (1%Z, r)
    | _ => (1%Z, s)
    end in
  let '(radix, s) :=
    match s with
    | String "0" (String "x" r) => (16%Z, r)
    | String "0" (String "X" r) => (16%Z, r)
    | _ => (10%Z, s)
    end in
  (λ n, (sign * n)%Z) <$> parse_digits radix None s.

(** [n || d] for a number that may be [NaN]: [NaN], [0] and [-0] are
    falsy. *)
Definition or_int (n : option Z) (d : Z) : Z :=
  match n with
  | Some v => if (v =? 0)%Z then d else v
  | None => d
  end.

(** ** LeadDiscovery *)

Module LeadDiscovery.

Record State := mkState {
  triggerTypes : list string;
  limitPerType : Z;
  isDiscovering : bool;
  discoveredCompanies : list Company.t
}.

Definition initial : State :=
  {| triggerTypes := ["hiring"; "funding"; "outdated_tech"];
     limitPerType := 20; isDiscovering := false; discoveredCompanies := [] |}.

Definition setTriggerTypes (v : list string) : M State unit :=
  modify (λ s, mkState v (limitPerType s) (isDiscovering s) (discoveredCompanies s)).
Definition setLimitPerType (v : Z) : M State unit :=
  modify (λ s, mkState (triggerTypes s) v (isDiscovering s) (discoveredCompanies s)).
Definition setIsDiscovering (v : bool) : M State unit :=
  modify (λ s, mkState (triggerTypes s) (limitPerType s) v (discoveredCompanies s)).
Definition setDiscoveredCompanies (v : list Company.t) : M State unit :=
  modify (λ s, mkState (triggerTypes s) (limitPerType s) (isDiscovering s) v).

Definition handleTriggerChange (triggerId : string) (checked : bool) : M State unit :=
  s ← get;
  if checked then
    setTriggerTypes (triggerTypes s ++ [triggerId])
  else
    setTriggerTypes (List.filter (λ t, negb (String.eqb t triggerId)) (triggerTypes s)).

(** The [onChange] handler of the limit input:
    [setLimitPerType(parseInt(e.target.value) || 20)].  The [min] and [max]
    attributes of the input are [limitMin] and [limitMax]. *)
Definition limitMin : Z := 1.
Definition limitMax : Z := 100.

Definition onLimitChange (value : string) : M State unit :=
  setLimitPerType (or_int (parseInt value) 20).

Definition discoverLeads (net : Net) : M State unit :=
  s ← get;
  if Nat.eqb (length (triggerTypes s)) 0 then
    toast (error_toast "Please select at least one trigger type")
  else
    setIsDiscovering true;;
    r ← fetch net (PostDiscover (triggerTypes s) (limitPerType s));
    match r with
    | Reply _ data =>
        if success data then
          setDiscoveredCompanies (or_nil (data_companies data));;
          toast {| title := "Success"; description := message data;
                   destructive := false |}
        else
          toast (error_toast (or_str (error data) "Failed to discover leads"))
    | NetworkFailure => toast (error_toast "Network error occurred")
    end;;
    setIsDiscovering false.

(** The limits that the requests of a run of the handler carry. *)
Definition submittedLimits (log : list Effect) : list Z :=
  flat_map (λ e, match e with
                 | Fetch (PostDiscover _ limit) => [limit]
                 | _ => []
                 end) log.

End LeadDiscovery.

(** ** Properties of a log of effects, and sample data *)

(** Every item of every send request in the log carries a non-empty
    to-address. *)
Definition every_item_addressed (log : list Effect) : Prop :=
  ∀ emails mode item,
    In (Fetch (PostSendEmails emails mode)) log →
    In item emails →
    ∃ address, OutgoingEmail.to_email item = Some address ∧ address ≠ "".

(** A backend that accepts every request. *)
Definition acceptAll : Net :=
  λ _, Reply true {| success := true; message := Some "done"; error := None;
                     data_contacts := None; data_companies := None |}.

(** A backend that refuses every request. *)
Definition refuseAll : Net :=
  λ _, Reply true {| success := false; message := None; error := Some "refused";
                     data_contacts := None; data_companies := None |}.

Definition sampleContact (i : Id) (first : string) (mail : option string)
    (points : option Q) (validated : bool) (result : option string) : Contact.t :=
  {| Contact.id := i; Contact.first_name := Some first; Contact.last_name := None;
     Contact.email := mail; Contact.job_title := None;
     Contact.company_name := None; Contact.company_domain := None;
     Contact.company_trigger := None; Contact.company_industry := None;
     Contact.decision_maker_score := points;
     Contact.email_validated := validated;
     Contact.email_validation_result := result |}.

Definition sampleEmail (i : Id) : GeneratedEmail.t :=
  {| GeneratedEmail.contact_id := i; GeneratedEmail.contact_name := Some "Ann";
     GeneratedEmail.company_name := Some "Acme";
     GeneratedEmail.subject := Some "Hello"; GeneratedEmail.body := Some "Hi Ann" |}.

(** A campaign page with one contact, one selected id, and a batch of two
    generated emails, the second for a contact that is not in the
    collection. *)
Definition sampleCampaign (mode : bool) : EmailCampaigns.State :=
  {| EmailCampaigns.contacts :=
       [sampleContact 1 "Ann" (Some "ann@acme.io") (Some (4 # 5)%Q) true (Some "valid")];
     EmailCampaigns.selectedContacts := [1%Z];
     EmailCampaigns.generatedEmails := [sampleEmail 1; sampleEmail 7];
     EmailCampaigns.selectedTemplate := "hiring";
     EmailCampaigns.isGenerating := false;
     EmailCampaigns.isSending := false;
     EmailCampaigns.testMode := mode |}.

(** [item] is the outgoing item of the generated email [email]: same
    identifier, subject and body, and a to-address obtained by the join
    against the collection [cs]: the email of the first contact with that
    identifier, and no to-address when no contact has it. *)
Definition resolved (cs : list Contact.t) (email : GeneratedEmail.t)
    (item : OutgoingEmail.t) : Prop :=
  OutgoingEmail.contact_id item = GeneratedEmail.contact_id email
  ∧ OutgoingEmail.subject item = GeneratedEmail.subject email
  ∧ OutgoingEmail.body item = GeneratedEmail.body email
  ∧ (∀ before c after,
        cs = before ++ c :: after →
        Contact.id c = GeneratedEmail.contact_id email →
        (∀ c', In c' before → Contact.id c' ≠ GeneratedEmail.contact_id email) →
        OutgoingEmail.to_email item = Contact.email c)
  ∧ ((∀ c, In c cs → Contact.id c ≠ GeneratedEmail.contact_id email) →
     OutgoingEmail.to_email item = None).

(** A contact page, past its first load, holding the collection [cs] and
    the given criteria. *)
Definition pageWith (cs : list Contact.t) (search trigger validation : string)
    : ContactManagement.State :=
  {| ContactManagement.store := <[2%positive := []]> (<[1%positive := cs]> ∅);
     ContactManagement.contacts := 1%positive;
     ContactManagement.filteredContacts := 2%positive;
     ContactManagement.selectedContacts := [];
     ContactManagement.loading := false;
     ContactManagement.validating := false;
     ContactManagement.searchTerm := search;
     ContactManagement.triggerFilter := trigger;
     ContactManagement.validationFilter := validation |}.

Definition ann : Contact.t :=
  sampleContact 1 "Ann" (Some "ann@acme.io") (Some (1 # 10)%Q) true (Some "valid").
Definition bob : Contact.t :=
  sampleContact 2 "Bob" (Some "bob@acme.io") (Some (9 # 10)%Q) true (Some "risky").
(** A contact that was never validated but carries a result. *)
Definition cat : Contact.t :=
  sampleContact 3 "Cat" (Some "cat@acme.io") (Some (1 # 10)%Q) false (Some "valid").
Definition dan : Contact.t :=
  sampleContact 4 "Dan" None None true (Some "valid").

(** ** Invariants of ContactManagement *)

(** The cells of a state other than the store. *)
Definition same_cells (s0 s : ContactManagement.State) : Prop :=
  ContactManagement.contacts s = ContactManagement.contacts s0
  ∧ ContactManagement.filteredContacts s = ContactManagement.filteredContacts s0
  ∧ ContactManagement.selectedContacts s = ContactManagement.selectedContacts s0
  ∧ ContactManagement.loading s = ContactManagement.loading s0
  ∧ ContactManagement.validating s = ContactManagement.validating s0
  ∧ ContactManagement.searchTerm s = ContactManagement.searchTerm s0
  ∧ ContactManagement.triggerFilter s = ContactManagement.triggerFilter s0
  ∧ ContactManagement.validationFilter s = ContactManagement.validationFilter s0.

(** The situation of the local variable [filtered] inside [filterContacts]
    started in [s0]: it refers to the contacts of [s0] that pass [P]; the
    arrays of [s0] are as they were; and [filtered] is either still the
    [contacts] array itself ([aliased]) or an array that [s0] did not
    hold. *)
Record chain (s0 : ContactManagement.State) (P : Contact.t → bool) (aliased : bool)
    (filtered : ContactManagement.ref) (s : ContactManagement.State) : Prop := {
  chain_cells : same_cells s0 s;
  chain_old : ∀ x, is_Some (ContactManagement.store s0 !! x) →
                   ContactManagement.store s !! x = ContactManagement.store s0 !! x;
  chain_elems : ContactManagement.store s !! filtered
                = Some (List.filter P (ContactManagement.contactList s0));
  chain_alias : if aliased
                then filtered = ContactManagement.contacts s0
                else ContactManagement.store s0 !! filtered = None
}.

(** Both references of a state point into its store. *)
Definition wf (s : ContactManagement.State) : Prop :=
  is_Some (ContactManagement.store s !! ContactManagement.contacts s)
  ∧ is_Some (ContactManagement.store s !! ContactManagement.filteredContacts s).

(** The backend never delivers two contacts with the same identifier. *)
Definition distinct_ids (net : Net) : Prop :=
  ∀ ok data companies,
    net ContactManagement.companiesRequest = Reply ok data →
    data_companies data = Some companies →
    List.NoDup (map Contact.id (ContactManagement.flattenContacts companies)).

Definition event_distinct (e : ContactManagement.Event) : Prop :=
  match e with
  | ContactManagement.ClickValidate net => distinct_ids net
  | _ => True
  end.

(** What a handler has to leave in place for the render that follows it:
    the [contacts] reference points into the store, and neither the
    collection nor the selection repeats an identifier. *)
Definition settled (s : ContactManagement.State) : Prop :=
  is_Some (ContactManagement.store s !! ContactManagement.contacts s)
  ∧ List.NoDup (map Contact.id (ContactManagement.contactList s))
  ∧ List.NoDup (ContactManagement.selectedContacts s).

(** The invariant of the page between two events. *)
Definition consistent (s : ContactManagement.State) : Prop :=
  settled s
  ∧ is_Some (ContactManagement.store s !! ContactManagement.filteredContacts s)
  ∧ List.NoDup (ContactManagement.visibleIds s).

(** [s1] differs from [s] at most in the selection and the busy flags. *)
Definition same_data (s s1 : ContactManagement.State) : Prop :=
  ContactManagement.store s1 = ContactManagement.store s
  ∧ ContactManagement.contacts s1 = ContactManagement.contacts s
  ∧ ContactManagement.filteredContacts s1 = ContactManagement.filteredContacts s
  ∧ ContactManagement.searchTerm s1 = ContactManagement.searchTerm s
  ∧ ContactManagement.triggerFilter s1 = ContactManagement.triggerFilter s
  ∧ ContactManagement.validationFilter s1 = ContactManagement.validationFilter s.

(** [s1] is [s] after a successful [fetchContacts]: [contacts] refers to a
    new array that holds the flattened reply. *)
Definition refetched (net : Net) (s s1 : ContactManagement.State) : Prop :=
  ∃ ok data companies,
    net ContactManagement.companiesRequest = Reply ok data
    ∧ data_companies data = Some companies
    ∧ ContactManagement.store s1
      = <[fresh (dom (ContactManagement.store s))
          := ContactManagement.flattenContacts companies]> (ContactManagement.store s)
    ∧ ContactManagement.contacts s1 = fresh (dom (ContactManagement.store s))
    ∧ ContactManagement.filteredContacts s1 = ContactManagement.filteredContacts s
    ∧ ContactManagement.searchTerm s1 = ContactManagement.searchTerm s
    ∧ ContactManagement.triggerFilter s1 = ContactManagement.triggerFilter s
    ∧ ContactManagement.validationFilter s1 = ContactManagement.validationFilter s.

(** A second record with the identifier of [ann], and a backend that
    delivers it next to [ann] and [bob]. *)
Definition annabel : Contact.t :=
  sampleContact 1 "Annabel" None (Some (1 # 2)%Q) true (Some "valid").

Definition repeatingBackend : Net :=
  λ r, match r with
       | GetCompanies _ =>
           Reply true {| success := true; message := None; error := None;
                         data_contacts := None;
                         data_companies :=
                           Some [{| Company.name := Some "Acme";
                                    Company.domain := Some "acme.io";
                                    Company.industry := None;
                                    Company.trigger_type := Some "hiring";
                                    Company.top_contacts := Some [ann; annabel; bob] |}] |}
       | r => acceptAll r
       end.

(** A backend with one company and its two contacts. *)
Definition acme : Company.t :=
  {| Company.name := Some "Acme"; Company.domain := Some "acme.io";
     Company.industry := None; Company.trigger_type := Some "hiring";
     Company.top_contacts := Some [ann; bob] |}.

Definition acmeBackend : Net :=
  λ r, match r with
       | GetCompanies _ =>
           Reply true {| success := true; message := None; error := None;
                         data_contacts := None; data_companies := Some [acme] |}
       | _ => acceptAll r
       end.

(** * The rest of the pages

    The handlers, controls and derived values of the three pages that the
    sections above do not need.  The generation and preview endpoints have
    requests and replies of their own, so their handlers log into an effect
    type of their own. *)

From Stdlib Require DecimalString DecimalPos DecimalZ.

(** ** Handlers over any effect type *)

Record Handler (E S A : Type) : Type := mkHandler {
  runHandler : S → A * S * list E
}.
Arguments mkHandler {E S A} _.
Arguments runHandler {E S A} _ _.

Global Instance Handler_ret {E S} : MRet (Handler E S) :=
  λ A x, mkHandler (λ s, (x, s, [])).

Global Instance Handler_bind {E S} : MBind (Handler E S) := λ A B f m,
  mkHandler (λ s,
    let '(a, s1, e1) := runHandler m s in
    let '(b, s2, e2) := runHandler (f a) s1 in
    (b, s2, e1 ++ e2)).

Definition current {E S} : Handler E S S := mkHandler (λ s, (s, s, [])).
Definition update {E S} (f : S → S) : Handler E S unit := mkHandler (λ s, (tt, f s, [])).
Definition record {E S} (e : E) : Handler E S unit := mkHandler (λ s, (tt, s, [e])).

Definition state_after {E S A} (r : A * S * list E) : S := snd (fst r).
Definition log_of {E S A} (r : A * S * list E) : list E := snd r.

(** [`${n}`] for a number that may be missing. *)
Definition show_number (n : option Z) : string :=
  match n with
  | Some v => DecimalString.NilZero.string_of_int (Z.to_int v)
  | None => "undefined"
  end.


(** ** EmailCampaigns: generation, preview and selection *)

Module Campaign.

Record Preview := {
  subject : option string;
  body : option string;
  template_type : option string
}.

(** The parsed body of a reply of the generation and preview endpoints. *)
Record Data := {
  success : bool;
  error : option string;
  generated_emails : option (list GeneratedEmail.t);
  total_generated : option Z;
  contact_name : option string;
  contact_company : option string;
  preview : option Preview
}.

Inductive Request :=
| PostGenerateEmails (contact_ids : list Id) (template_type : string)
| PostPreviewEmail (contact_id : Id) (template_type : string).

Inductive Outcome :=
| NetworkFailure
| Reply (data : Data).

Inductive Effect :=
| Toast (t : ToastMsg)
| Fetch (r : Request).

Definition is_fetch (e : Effect) : bool :=
  match e with
  | Fetch _ => true
  | Toast _ => false
  end.

(** The page: the cells of [EmailCampaigns.State] and the two cells of the
    preview dialog. *)
Record Page := mkPage {
  cells : EmailCampaigns.State;
  previewEmail : option Data;
  showPreview : bool
}.

Definition setIsGenerating (v : bool) : Handler Effect EmailCampaigns.State unit :=
  update (λ s, EmailCampaigns.mkState (EmailCampaigns.contacts s)
                 (EmailCampaigns.selectedContacts s) (EmailCampaigns.generatedEmails s)
                 (EmailCampaigns.selectedTemplate s) v (EmailCampaigns.isSending s)
                 (EmailCampaigns.testMode s)).
Definition setGeneratedEmails (v : list GeneratedEmail.t)
    : Handler Effect EmailCampaigns.State unit :=
  update (λ s, EmailCampaigns.mkState (EmailCampaigns.contacts s)
                 (EmailCampaigns.selectedContacts s) v
                 (EmailCampaigns.selectedTemplate s) (EmailCampaigns.isGenerating s)
                 (EmailCampaigns.isSending s) (EmailCampaigns.testMode s)).
Definition setPreviewEmail (v : option Data) : Handler Effect Page unit :=
  update (λ p, mkPage (cells p) v (showPreview p)).
Definition setShowPreview (v : bool) : Handler Effect Page unit :=
  update (λ p, mkPage (cells p) (previewEmail p) v).

Definition toast {S} (t : ToastMsg) : Handler Effect S unit := record (Toast t).

(** [await fetch(r)] followed by [await response.json()]. *)
Definition fetch {S} (net : Request → Outcome) (r : Request) : Handler Effect S Outcome :=
  record (Fetch r);; mret (net r).

Definition generateEmails (net : Request → Outcome)
    : Handler Effect EmailCampaigns.State unit :=
  s ← current;
  if Nat.eqb (length (EmailCampaigns.selectedContacts s)) 0 then
    toast (error_toast "Please select contacts to generate emails for")
  else
    setIsGenerating true;;
    r ← fetch net (PostGenerateEmails (EmailCampaigns.selectedContacts s)
                                      (EmailCampaigns.selectedTemplate s));
    match r with
    | Reply data =>
        if success data then
          setGeneratedEmails (or_nil (generated_emails data));;
          toast {| title := "Success";
                   description :=
                     Some ("Generated " +:+ show_number (total_generated data)
                           +:+ " personalized emails");
                   destructive := false |}
        else
          toast (error_toast (or_str (error data) "Failed to generate emails"))
    | NetworkFailure => toast (error_toast "Network error occurred")
    end;;
    setIsGenerating false.

Definition previewEmailForContact (net : Request → Outcome) (contactId : Id)
    : Handler Effect Page unit :=
  p ← current;
  r ← fetch net (PostPreviewEmail contactId (EmailCampaigns.selectedTemplate (cells p)));
  match r with
  | Reply data =>
      if success data then
        setPreviewEmail (Some data);;
        setShowPreview true
      else
        toast (error_toast (or_str (error data) "Failed to generate preview"))
  | NetworkFailure => toast (error_toast "Network error occurred")
  end.

(** [selectedContacts.includes(id)] *)
Definition isSelected (s : EmailCampaigns.State) (i : Id) : bool :=
  existsb (strict_eq i) (EmailCampaigns.selectedContacts s).

Definition handleSelectContact (contactId : Id) (checked : bool)
    : M EmailCampaigns.State unit :=
  s ← get;
  if checked then
    EmailCampaigns.setSelectedContacts (EmailCampaigns.selectedContacts s ++ [contactId])
  else
    EmailCampaigns.setSelectedContacts
      (List.filter (λ i, negb (strict_eq i contactId)) (EmailCampaigns.selectedContacts s)).

Definition handleSelectAll (checked : bool) : M EmailCampaigns.State unit :=
  s ← get;
  if checked then
    EmailCampaigns.setSelectedContacts (map Contact.id (EmailCampaigns.contacts s))
  else
    EmailCampaigns.setSelectedContacts [].

(** The [checked] property of the select-all checkbox:
    [selectedContacts.length === contacts.length && contacts.length > 0]. *)
Definition selectAllChecked (s : EmailCampaigns.State) : bool :=
  (Nat.eqb (length (EmailCampaigns.selectedContacts s)) (length (EmailCampaigns.contacts s))
   && Nat.ltb 0 (length (EmailCampaigns.contacts s)))%bool.

(** The [disabled] properties of the two buttons. *)
Definition generateDisabled (s : EmailCampaigns.State) : bool :=
  (EmailCampaigns.isGenerating s
   || Nat.eqb (length (EmailCampaigns.selectedContacts s)) 0)%bool.

Definition sendDisabled (s : EmailCampaigns.State) : bool :=
  (EmailCampaigns.isSending s
   || Nat.eqb (length (EmailCampaigns.generatedEmails s)) 0)%bool.

End Campaign.

(** ** ContactManagement: the validation badge *)

Inductive Badge := Unvalidated | Valid | Invalid | Risky | Unknown.

Definition getValidationBadge (contact : Contact.t) : Badge :=
  if negb (Contact.email_validated contact) then Unvalidated
  else
    match Contact.email_validation_result contact with
    | Some result =>
        if String.eqb result "valid" then Valid
        else if String.eqb result "invalid" then Invalid
        else if String.eqb result "risky" then Risky
        else Unknown
    | None => Unknown
    end.

(** The badge that goes with a result of the validation filter. *)
Definition badgeOf (result : string) : Badge :=
  if String.eqb result "valid" then Valid
  else if String.eqb result "invalid" then Invalid
  else if String.eqb result "risky" then Risky
  else Unknown.

(** ** ContactManagement: the page between two events *)

(** The view is the sorted list of the contacts that pass the criteria; the
    view is the [contacts] array itself exactly when no criterion is
    active; every selected identifier belongs to a contact of the
    collection; and no request is pending. *)
Definition synced (s : ContactManagement.State) : Prop :=
  is_Some (ContactManagement.store s !! ContactManagement.contacts s)
  ∧ ContactManagement.filteredList s
    = js_sort ContactManagement.compareScore
        (List.filter (ContactManagement.keeps s) (ContactManagement.contactList s))
  ∧ (ContactManagement.noFilter s = true ↔
     ContactManagement.filteredContacts s = ContactManagement.contacts s)
  ∧ incl (ContactManagement.selectedContacts s)
         (map Contact.id (ContactManagement.contactList s))
  ∧ ContactManagement.loading s = false
  ∧ ContactManagement.validating s = false.


(** ** LeadDiscovery: the page and its events *)

Module Discovery.

(** The [id]s of [triggerOptions]. *)
Definition triggerOptions : list string := ["hiring"; "funding"; "outdated_tech"].

(** [triggerTypes.includes(option.id)] *)
Definition isChecked (s : LeadDiscovery.State) (optionId : string) : bool :=
  existsb (String.eqb optionId) (LeadDiscovery.triggerTypes s).

(** A click on the card of an option:
    [handleTriggerChange(option.id, !isChecked)]. *)
Definition clickOption (optionId : string) : M LeadDiscovery.State unit :=
  s ← get;
  LeadDiscovery.handleTriggerChange optionId (negb (isChecked s optionId)).

(** The [disabled] property of the discovery button. *)
Definition discoverDisabled (s : LeadDiscovery.State) : bool :=
  (LeadDiscovery.isDiscovering s
   || Nat.eqb (length (LeadDiscovery.triggerTypes s)) 0)%bool.

Inductive Event :=
| ClickOption (optionId : string)
| TypeLimit (value : string)
| ClickDiscover (net : Net).

(** Only the cards of the three options exist, and a disabled button does
    not react. *)
Definition handle (e : Event) : M LeadDiscovery.State unit :=
  match e with
  | ClickOption optionId =>
      if existsb (String.eqb optionId) triggerOptions
      then clickOption optionId
      else skip
  | TypeLimit value => LeadDiscovery.onLimitChange value
  | ClickDiscover net =>
      s ← get;
      if discoverDisabled s then skip else LeadDiscovery.discoverLeads net
  end.

(** The page after a sequence of events, with the log of all effects. *)
Definition run (events : list Event) : LeadDiscovery.State * list Effect :=
  fold_left (λ acc e, let r := handle e (fst acc) in
                      (final_state r, snd acc ++ effects r))
            events (LeadDiscovery.initial, []).

End Discovery.

(** ** Navbar *)

Module Navbar.

Record NavItem := { path : string; label : string }.

Definition navItems : list NavItem :=
  [ {| path := "/"; label := "Dashboard" |};
    {| path := "/discover"; label := "Discover Leads" |};
    {| path := "/contacts"; label := "Contacts" |};
    {| path := "/campaigns"; label := "Email Campaigns" |};
    {| path := "/settings"; label := "Settings" |} ].

(** [location.pathname === item.path] *)
Definition isActive (pathname : string) (item : NavItem) : bool :=
  String.eqb pathname (path item).

Definition activeItems (pathname : string) : list NavItem :=
  List.filter (isActive pathname) navItems.

End Navbar.

(** * Theorems *)

Ltac run_handler :=
  unfold mbind, M_bind, mret, M_ret, get, modify, emit, toast, fetch, skip,
    final_state, effects; simpl.

(** Case analysis on the replies and flags a handler branches on. *)
Ltac case_replies net :=
  repeat (match goal with
          | |- context [net ?r] => destruct (net r) as [|[] ?] eqn:?
          | |- context [if ?b then _ else _] => destruct b eqn:?
          | |- context [match ?o with Some _ => _ | None => _ end] =>
              destruct o eqn:?
          end; simpl).

(** ** EmailCampaigns: the gated send *)

Section SendEmails.
Import EmailCampaigns.
Variable net : Net.

(** With an empty batch the handler returns before any request: the only
    effect is the error message. *)
Lemma sendEmails_empty_batch s :
  generatedEmails s = [] →
  sendEmails net s = (tt, s, [Toast (error_toast "Please generate emails first")]).
Proof.
  intros Hgen. unfold sendEmails. run_handler. rewrite Hgen. reflexivity.
Qed.

(** C1.  A live send (testMode = false) of a batch, whose reply reports
    success, leaves the generated batch empty and the selection empty, and
    issues the request that re-fetches the contact collection.  (A request,
    and so a reply, exists only for a non-empty batch.) *)
Theorem live_send_invalidates s :
  testMode s = false →
  generatedEmails s ≠ [] →
  send_succeeds net s →
  let r := sendEmails net s in
  generatedEmails (final_state r) = []
  ∧ selectedContacts (final_state r) = []
  ∧ In (Fetch filterContactsRequest) (effects r).
Proof.
  intros Hmode Hgen (ok & data & Hreply & Hok).
  unfold sendEmails, fetchContacts, setContacts, setGeneratedEmails,
    setSelectedContacts, setIsSending.
  run_handler.
  destruct (generatedEmails s) as [|g gs] eqn:E; [done|]. simpl.
  rewrite Hmode in *. rewrite Hreply, Hok. simpl.
  destruct (net filterContactsRequest) as [|[] d]; simpl.
  - auto 10.
  - destruct (success d); simpl; auto 10.
  - auto 10.
Qed.

(** C2.  A test send (testMode = true) of a batch of M emails, whose reply
    reports success, leaves the batch as it was (so it still has M
    entries), leaves the selection and the contact collection as they
    were, and issues no request besides the send itself: nothing is
    re-fetched. *)
Theorem test_send_keeps_state s :
  testMode s = true →
  generatedEmails s ≠ [] →
  send_succeeds net s →
  let r := sendEmails net s in
  generatedEmails (final_state r) = generatedEmails s
  ∧ length (generatedEmails (final_state r)) = length (generatedEmails s)
  ∧ selectedContacts (final_state r) = selectedContacts s
  ∧ contacts (final_state r) = contacts s
  ∧ List.filter is_fetch (effects r) = [Fetch (PostSendEmails (emailsToSend s) true)]
  ∧ ¬ In (Fetch filterContactsRequest) (effects r).
Proof.
  intros Hmode Hgen (ok & data & Hreply & Hok).
  unfold sendEmails, setIsSending.
  run_handler.
  destruct (generatedEmails s) as [|g gs] eqn:E; [done|]. simpl.
  rewrite Hmode in *. rewrite Hreply, Hok. simpl.
  repeat split; try reflexivity; try (now rewrite E).
  intros [H|[H|[]]]; discriminate H.
Qed.

Lemma find_first_match (cs before after : list Contact.t) (c : Contact.t) (i : Id) :
  cs = before ++ c :: after →
  Contact.id c = i →
  (∀ c', In c' before → Contact.id c' ≠ i) →
  find (λ c, strict_eq (Contact.id c) i) cs = Some c.
Proof.
  intros -> Hc. induction before as [|b before IH]; simpl; intros Hno.
  - unfold strict_eq. rewrite Hc, Z.eqb_refl. reflexivity.
  - unfold strict_eq at 1. destruct (Z.eqb_spec (Contact.id b) i) as [Hb|_].
    + destruct (Hno b); auto.
    + apply IH. intros c' Hin. apply Hno. now right.
Qed.

Lemma find_no_match (cs : list Contact.t) (i : Id) :
  (∀ c, In c cs → Contact.id c ≠ i) →
  find (λ c, strict_eq (Contact.id c) i) cs = None.
Proof.
  induction cs as [|b cs IH]; simpl; intros Hno; [reflexivity|].
  unfold strict_eq at 1. destruct (Z.eqb_spec (Contact.id b) i) as [Hb|_].
  - destruct (Hno b); auto.
  - apply IH. intros c Hin. apply Hno. now right.
Qed.

Lemma emailsToSend_resolved s :
  Forall2 (resolved (contacts s)) (generatedEmails s) (emailsToSend s).
Proof.
  unfold emailsToSend.
  induction (generatedEmails s) as [|g gs IH]; simpl; constructor; [|exact IH].
  unfold resolved, lookupEmail; simpl. repeat split.
  - intros before c after Hcs Hid Hno.
    now rewrite (find_first_match _ _ _ _ _ Hcs Hid Hno).
  - intros Hno. now rewrite (find_no_match _ _ Hno).
Qed.

(** C3 (as amended).  For a non-empty batch the send request of the handler
    carries the generated emails, one item per email and in the same
    order, each with the to-address given by the join of its contact_id
    against the contact collection (the email of the first contact with
    that identifier).  An email whose contact_id matches no contact is not
    excluded: its item is submitted with no to-address. *)
Theorem send_joins_contacts s :
  generatedEmails s ≠ [] →
  let r := sendEmails net s in
  (∀ emails mode,
      In (Fetch (PostSendEmails emails mode)) (effects r) ↔
      emails = emailsToSend s ∧ mode = testMode s)
  ∧ Forall2 (resolved (contacts s)) (generatedEmails s) (emailsToSend s)
  ∧ length (emailsToSend s) = length (generatedEmails s).
Proof.
  intros Hgen r. split; [|split].
  - intros emails mode. subst r.
    unfold sendEmails, fetchContacts, setContacts, setGeneratedEmails,
      setSelectedContacts, setIsSending, filterContactsRequest.
    run_handler.
    destruct (generatedEmails s) as [|g gs] eqn:E; [done|]. simpl.
    repeat (match goal with
            | |- context [net ?r] => destruct (net r) as [|[] ?] eqn:?
            | |- context [if ?b then _ else _] => destruct b eqn:?
            end; simpl).
    all: split;
      [ intros H;
        repeat (destruct H as [H|H];
                [first [injection H as <- <-; now auto | discriminate H]|]);
        destruct H
      | intros [-> ->]; now left ].
  - apply emailsToSend_resolved.
  - unfold emailsToSend. apply length_map.
Qed.

End SendEmails.

Lemma live_send_invalidates_witness :
  let r := EmailCampaigns.sendEmails acceptAll (sampleCampaign false) in
  EmailCampaigns.generatedEmails (final_state r) = []
  ∧ EmailCampaigns.selectedContacts (final_state r) = []
  ∧ In (Fetch EmailCampaigns.filterContactsRequest) (effects r).
Proof.
  apply (live_send_invalidates acceptAll (sampleCampaign false)).
  - reflexivity.
  - discriminate.
  - eexists _, _. split; reflexivity.
Defined.

Lemma test_send_keeps_state_witness :
  let s := sampleCampaign true in
  let r := EmailCampaigns.sendEmails acceptAll s in
  EmailCampaigns.generatedEmails (final_state r) = EmailCampaigns.generatedEmails s
  ∧ length (EmailCampaigns.generatedEmails (final_state r)) = 2
  ∧ EmailCampaigns.selectedContacts (final_state r) = [1%Z].
Proof.
  destruct (test_send_keeps_state acceptAll (sampleCampaign true)) as (H1 & H2 & H3 & _).
  - reflexivity.
  - discriminate.
  - eexists _, _. split; reflexivity.
  - auto.
Defined.

(** C3 (as stated) fails: the second email of the sample batch is for a
    contact that is not in the collection, and the request still carries
    its item, without a to-address. *)
Lemma unmatched_email_is_submitted :
  ¬ every_item_addressed (effects (EmailCampaigns.sendEmails acceptAll (sampleCampaign true))).
Proof.
  intros H.
  destruct (H (EmailCampaigns.emailsToSend (sampleCampaign true)) true
              {| OutgoingEmail.contact_id := 7; OutgoingEmail.to_email := None;
                 OutgoingEmail.subject := Some "Hello";
                 OutgoingEmail.body := Some "Hi Ann" |})
    as (address & Haddr & _).
  - vm_compute. auto.
  - vm_compute. auto.
  - discriminate Haddr.
Qed.

Lemma send_joins_contacts_witness :
  Forall2 (resolved (EmailCampaigns.contacts (sampleCampaign true)))
          (EmailCampaigns.generatedEmails (sampleCampaign true))
          (EmailCampaigns.emailsToSend (sampleCampaign true))
  ∧ length (EmailCampaigns.emailsToSend (sampleCampaign true)) = 2.
Proof.
  destruct (send_joins_contacts acceptAll (sampleCampaign true)) as (_ & H & Hlen).
  - discriminate.
  - split; [exact H | exact Hlen].
Defined.

(** ** Array.prototype.sort: sortedness, permutation, stability *)

Section Sort.
Context {A : Type}.

Lemma sort_insert_perm (cmp : A → A → Q) (x : A) (l : list A) :
  Permutation (sort_insert cmp x l) (x :: l).
Proof.
  induction l as [|y l IH]; simpl; [reflexivity|].
  destruct (Qle_bool (cmp x y) 0); [reflexivity|].
  rewrite IH. apply perm_swap.
Qed.

Lemma js_sort_perm (cmp : A → A → Q) (l : list A) :
  Permutation (js_sort cmp l) l.
Proof.
  induction l as [|x l IH]; simpl; [reflexivity|].
  rewrite sort_insert_perm. now constructor.
Qed.

Variable key : A → Q.
Let cmp (a b : A) : Q := (key b - key a)%Q.
Let above (a b : A) : Prop := (key b <= key a)%Q.

Lemma cmp_nonpositive (x y : A) :
  Qle_bool (cmp x y) 0 = true ↔ (key y <= key x)%Q.
Proof. unfold cmp. rewrite Qle_bool_iff. split; intros H; lra. Qed.

Lemma cmp_positive (x y : A) :
  Qle_bool (cmp x y) 0 = false ↔ (key x < key y)%Q.
Proof.
  rewrite <- not_true_iff_false, cmp_nonpositive. split; intros H; lra.
Qed.

Lemma sort_insert_sorted (x : A) (l : list A) :
  StronglySorted above l → StronglySorted above (sort_insert cmp x l).
Proof.
  induction 1 as [|y l Hl IH Hy]; simpl.
  - repeat constructor.
  - destruct (Qle_bool (cmp x y) 0) eqn:E.
    + apply cmp_nonpositive in E.
      constructor; [now constructor|].
      constructor; [exact E|].
      eapply List.Forall_impl; [|exact Hy]. unfold above. simpl. intros z Hz. lra.
    + apply cmp_positive in E.
      constructor; [exact IH|].
      rewrite sort_insert_perm. constructor; [|exact Hy].
      unfold above. lra.
Qed.

Lemma js_sort_sorted (l : list A) : StronglySorted above (js_sort cmp l).
Proof.
  induction l as [|x l IH]; simpl; [constructor|].
  now apply sort_insert_sorted.
Qed.

Lemma sort_insert_stable (q : Q) (x : A) (l : list A) :
  List.filter (λ a, Qeq_bool (key a) q) (sort_insert cmp x l)
  = List.filter (λ a, Qeq_bool (key a) q) (x :: l).
Proof.
  induction l as [|y l IH]; [reflexivity|].
  cbn [sort_insert].
  destruct (Qle_bool (cmp x y) 0) eqn:E; [reflexivity|].
  apply cmp_positive in E.
  cbn [List.filter] in *. rewrite IH.
  destruct (Qeq_bool (key x) q) eqn:Ex, (Qeq_bool (key y) q) eqn:Ey; try reflexivity.
  apply Qeq_bool_iff in Ex, Ey. lra.
Qed.

Lemma js_sort_stable (q : Q) (l : list A) :
  List.filter (λ a, Qeq_bool (key a) q) (js_sort cmp l)
  = List.filter (λ a, Qeq_bool (key a) q) l.
Proof.
  induction l as [|x l IH]; [reflexivity|].
  cbn [js_sort foldr]. fold (js_sort cmp l).
  rewrite sort_insert_stable. cbn [List.filter]. now rewrite IH.
Qed.

Lemma js_sort_fixes_sorted (l : list A) :
  StronglySorted above l → js_sort cmp l = l.
Proof.
  induction 1 as [|x l Hl IH Hx]; [reflexivity|].
  cbn [js_sort foldr]. fold (js_sort cmp l). rewrite IH.
  destruct l as [|y l]; [reflexivity|]. simpl.
  inversion Hx as [|? ? Hxy _]; subst.
  apply cmp_nonpositive in Hxy. now rewrite Hxy.
Qed.

End Sort.

(** ** filterContacts on the store *)

Section FilterContacts.
Import ContactManagement.

Lemma filter_filter_andb {A} (p q : A → bool) (l : list A) :
  List.filter q (List.filter p l) = List.filter (λ x, p x && q x)%bool l.
Proof.
  induction l as [|x l IH]; simpl; [reflexivity|].
  destruct (p x); simpl; [destruct (q x)|]; now rewrite IH.
Qed.

Lemma filter_all {A} (p : A → bool) (l : list A) :
  (∀ x, p x = true) → List.filter p l = l.
Proof.
  intros Hp. induction l as [|x l IH]; simpl; [reflexivity|].
  now rewrite Hp, IH.
Qed.

Lemma same_cells_refl s : same_cells s s.
Proof. repeat split. Qed.

Lemma chain_start s0 :
  is_Some (store s0 !! contacts s0) →
  chain s0 (λ _, true) true (contacts s0) s0.
Proof.
  intros [l Hl]. split.
  - apply same_cells_refl.
  - reflexivity.
  - unfold contactList, elems. rewrite Hl. simpl.
    now rewrite filter_all.
  - reflexivity.
Qed.

Lemma chain_ext s0 P P' a r s :
  (∀ c, P c = P' c) → chain s0 P a r s → chain s0 P' a r s.
Proof.
  intros HP [H1 H2 H3 H4]. split; try assumption.
  rewrite H3. f_equal. apply filter_ext, HP.
Qed.

Lemma chain_keep s0 P a r s :
  chain s0 P a r s → chain s0 (λ c, P c && true)%bool a r s.
Proof. apply chain_ext. intros c. now rewrite andb_true_r. Qed.

(** [filter] gives a new array and leaves the arrays of [s0] alone. *)
Lemma array_filter_chain s0 P a r s p :
  chain s0 P a r s →
  ∃ r' s',
    array_filter p r s = (r', s', []) ∧ chain s0 (λ c, P c && p c)%bool false r' s'.
Proof.
  intros [Hcells Hold Helems Halias].
  exists (fresh (dom (store s))),
    (mkState (<[fresh (dom (store s)) := List.filter p (elems (store s) r)]> (store s))
       (contacts s) (filteredContacts s) (selectedContacts s) (loading s)
       (validating s) (searchTerm s) (triggerFilter s) (validationFilter s)).
  split.
  - reflexivity.
  - assert (Hfresh : store s !! fresh (dom (store s)) = None)
      by (apply not_elem_of_dom, is_fresh).
    split; cbn [store].
    + exact Hcells.
    + intros x Hx. rewrite lookup_insert_ne; [now apply Hold|].
      intros <-. pose proof (Hold _ Hx) as E. rewrite Hfresh in E.
      rewrite <- E in Hx. now destruct Hx.
    + rewrite lookup_insert_eq. unfold elems. rewrite Helems. simpl.
      now rewrite filter_filter_andb.
    + destruct (store s0 !! fresh (dom (store s))) eqn:E; [|reflexivity].
      assert (Hx : is_Some (store s0 !! fresh (dom (store s)))) by eauto.
      rewrite <- (Hold _ Hx), Hfresh in E. discriminate E.
Qed.

Lemma search_stage s0 P a r s :
  chain s0 P a r s →
  ∃ r' s',
    (if truthy_str (searchTerm s0)
     then array_filter (matchesSearch (searchTerm s0)) r
     else mret r) s = (r', s', [])
    ∧ chain s0 (λ c, P c && passesSearch s0 c)%bool
            (a && negb (truthy_str (searchTerm s0))) r' s'.
Proof.
  intros H. unfold passesSearch. destruct (truthy_str (searchTerm s0)).
  - rewrite andb_false_r. now apply (array_filter_chain _ _ _ _ _ _ H).
  - rewrite andb_true_r. eexists _, _. split; [reflexivity|]. now apply chain_keep.
Qed.

Lemma trigger_stage s0 P a r s :
  chain s0 P a r s →
  ∃ r' s',
    (if negb (String.eqb (triggerFilter s0) "all")
     then array_filter (matchesTrigger (triggerFilter s0)) r
     else mret r) s = (r', s', [])
    ∧ chain s0 (λ c, P c && passesTrigger s0 c)%bool
            (a && String.eqb (triggerFilter s0) "all") r' s'.
Proof.
  intros H. unfold passesTrigger. destruct (String.eqb (triggerFilter s0) "all"); simpl.
  - rewrite andb_true_r. eexists _, _. split; [reflexivity|]. now apply chain_keep.
  - rewrite andb_false_r. now apply (array_filter_chain _ _ _ _ _ _ H).
Qed.

Lemma validation_stage s0 P a r s :
  chain s0 P a r s →
  ∃ r' s',
    (if negb (String.eqb (validationFilter s0) "all") then
       if String.eqb (validationFilter s0) "validated" then
         array_filter Contact.email_validated r
       else if String.eqb (validationFilter s0) "unvalidated" then
         array_filter (λ contact, negb (Contact.email_validated contact)) r
       else
         array_filter (matchesResult (validationFilter s0)) r
     else mret r) s = (r', s', [])
    ∧ chain s0 (λ c, P c && passesValidation s0 c)%bool
            (a && String.eqb (validationFilter s0) "all") r' s'.
Proof.
  intros H. unfold passesValidation.
  destruct (String.eqb (validationFilter s0) "all"); simpl.
  - rewrite andb_true_r. eexists _, _. split; [reflexivity|]. now apply chain_keep.
  - rewrite andb_false_r.
    destruct (String.eqb (validationFilter s0) "validated");
      [|destruct (String.eqb (validationFilter s0) "unvalidated")];
      now apply (array_filter_chain _ _ _ _ _ _ H).
Qed.

(** What [filterContacts] does to a state whose [contacts] reference is in
    the store. *)
Lemma filterContacts_spec s0 :
  is_Some (store s0 !! contacts s0) →
  ∃ s',
    filterContacts s0 = (tt, s', [])
    ∧ filteredList s' = js_sort compareScore (List.filter (keeps s0) (contactList s0))
    ∧ contactList s'
      = (if noFilter s0 then js_sort compareScore (contactList s0) else contactList s0)
    ∧ (if noFilter s0 then filteredContacts s' = contacts s0
       else store s0 !! filteredContacts s' = None)
    ∧ (∀ x, is_Some (store s0 !! x) → is_Some (store s' !! x))
    ∧ wf s'
    ∧ contacts s' = contacts s0
    ∧ selectedContacts s' = selectedContacts s0
    ∧ loading s' = loading s0
    ∧ validating s' = validating s0
    ∧ searchTerm s' = searchTerm s0
    ∧ triggerFilter s' = triggerFilter s0
    ∧ validationFilter s' = validationFilter s0.
Proof.
  intros Hwf.
  pose proof (chain_start s0 Hwf) as H0.
  destruct (search_stage _ _ _ _ _ H0) as (r1 & s1 & E1 & H1).
  destruct (trigger_stage _ _ _ _ _ H1) as (r2 & s2 & E2 & H2).
  destruct (validation_stage _ _ _ _ _ H2) as (r3 & s3 & E3 & H3).
  apply (chain_ext _ _ (keeps s0)) in H3; [|reflexivity].
  change (true && negb (truthy_str (searchTerm s0)) && String.eqb (triggerFilter s0) "all"
          && String.eqb (validationFilter s0) "all")%bool with (noFilter s0) in H3.
  destruct H3 as [(C1 & C2 & C3 & C4 & C5 & C6 & C7 & C8) Hold Helems Halias].
  eexists. split.
  - unfold filterContacts.
    unfold mbind at 1, M_bind at 1, get. simpl.
    unfold mbind at 1, M_bind at 1. rewrite E1.
    unfold mbind at 1, M_bind at 1. rewrite E2.
    unfold mbind at 1, M_bind at 1. rewrite E3.
    unfold array_sort, setFilteredContacts, setStore. run_handler. reflexivity.
  - unfold filteredList, contactList, wf, elems in *. simpl.
    rewrite lookup_insert_eq, Helems. simpl.
    destruct Hwf as [L0 HL0]. rewrite HL0 in *. simpl in *.
    assert (Hr3 : if noFilter s0 then List.filter (keeps s0) L0 = L0
                  else r3 ≠ contacts s0).
    { destruct (noFilter s0).
      - subst r3. rewrite Hold, HL0 in Helems by eauto. congruence.
      - intros ->. congruence. }
    repeat split; try assumption; try reflexivity.
    + rewrite C1. destruct (noFilter s0).
      * subst r3. rewrite lookup_insert_eq. simpl. now rewrite Hr3.
      * rewrite lookup_insert_ne by auto. rewrite Hold, HL0 by eauto. reflexivity.
    + intros x Hx. destruct (decide (r3 = x)) as [->|Hne].
      * rewrite lookup_insert_eq. eauto.
      * rewrite lookup_insert_ne by auto. rewrite Hold by auto. exact Hx.
    + rewrite C1. destruct (decide (r3 = contacts s0)) as [->|Hne].
      * rewrite lookup_insert_eq. eauto.
      * rewrite lookup_insert_ne by auto. rewrite Hold, HL0 by eauto. eauto.
    + eauto.
Qed.

End FilterContacts.

(** ** ContactManagement: the filtered view *)

Section FilterContactsClaims.
Import ContactManagement.

(** A missing score counts as 0. *)
Lemma score_missing contact :
  Contact.decision_maker_score contact = None → score contact = 0%Q.
Proof. unfold score. now intros ->. Qed.

(** With an active criterion the [contacts] array is left as it is: the
    sort works on the array that [filter] has created. *)
Lemma filterContacts_keeps_input_when_filtering s :
  is_Some (store s !! contacts s) →
  noFilter s = false →
  contactList (final_state (filterContacts s)) = contactList s.
Proof.
  intros Hwf Hno.
  destruct (filterContacts_spec s Hwf) as (s' & -> & _ & Hc & _).
  now rewrite Hno in Hc.
Qed.

(** With no active criterion the [contacts] array itself is sorted, and
    [filteredContacts] refers to that same array. *)
Lemma filterContacts_sorts_input_in_place s :
  is_Some (store s !! contacts s) →
  noFilter s = true →
  let s' := final_state (filterContacts s) in
  contactList s' = js_sort compareScore (contactList s)
  ∧ filteredContacts s' = contacts s'.
Proof.
  intros Hwf Hno.
  destruct (filterContacts_spec s Hwf) as (s' & -> & _ & Hc & Hr & _ & _ & Hcs & _).
  rewrite Hno in Hc, Hr. cbn. now rewrite Hcs.
Qed.

(** C4.  The claim fails on the page that holds [ann; bob] and has no
    active criterion: after [filterContacts] the [contacts] array holds
    [bob; ann]. *)
Theorem filterContacts_reorders_contacts :
  let s := pageWith [ann; bob] "" "all" "all" in
  contactList s = [ann; bob]
  ∧ contactList (final_state (filterContacts s)) = [bob; ann].
Proof. split; vm_compute; reflexivity. Qed.

(** The same happens on the first load: the backend delivers [ann] before
    [bob], and once the page is mounted the [contacts] array holds them in
    the order of the view, being the very array [filteredContacts] refers
    to. *)
Lemma mounted_contacts_are_reordered :
  let s := mounted acmeBackend in
  map Contact.id (flattenContacts [acme]) = [1%Z; 2%Z]
  ∧ map Contact.id (contactList s) = [2%Z; 1%Z]
  ∧ filteredContacts s = contacts s.
Proof. repeat split; vm_compute; reflexivity. Qed.

(** C5.  The filtered view is sorted by descending score, a missing score
    counting as 0, and the sort is stable: for every score, the contacts of
    the view with that score are the contacts of the input collection that
    pass the criteria and have that score, in the order of the input. *)
Theorem filterContacts_sorted_and_stable s :
  is_Some (store s !! contacts s) →
  let view := filteredList (final_state (filterContacts s)) in
  StronglySorted (λ a b, (score b <= score a)%Q) view
  ∧ (∀ contact, Contact.decision_maker_score contact = None → score contact = 0%Q)
  ∧ Permutation view (List.filter (keeps s) (contactList s))
  ∧ ∀ q, List.filter (λ c, Qeq_bool (score c) q) view
         = List.filter (λ c, keeps s c && Qeq_bool (score c) q)%bool (contactList s).
Proof.
  intros Hwf.
  destruct (filterContacts_spec s Hwf) as (s' & -> & Hview & _).
  cbn. rewrite Hview. unfold compareScore. repeat split.
  - apply js_sort_sorted.
  - apply score_missing.
  - apply js_sort_perm.
  - intros q. rewrite js_sort_stable. apply filter_filter_andb.
Qed.

(** C6 (as stated) fails: [cat] was never validated but carries the result
    "valid", and the filter by that result keeps it. *)
Lemma result_filter_keeps_unvalidated :
  let s := pageWith [cat] "" "all" "valid" in
  ¬ ∀ contact,
      In contact (filteredList (final_state (filterContacts s))) →
      Contact.email_validated contact = true.
Proof.
  intros s H. specialize (H cat). discriminate H. vm_compute. auto.
Qed.

(** C6 (as amended).  Filtering by a concrete result keeps exactly the
    contacts whose email_validation_result is that value (among those that
    pass the search and trigger criteria); email_validated is not consulted,
    so every contact of the view is validated provided every contact of the
    collection that carries this result is. *)
Theorem result_filter_keeps_matching s mode :
  is_Some (store s !! contacts s) →
  In mode ["valid"; "invalid"; "risky"] →
  validationFilter s = mode →
  let view := filteredList (final_state (filterContacts s)) in
  Permutation view
    (List.filter (λ c, passesSearch s c && passesTrigger s c
                       && matchesResult mode c)%bool (contactList s))
  ∧ (∀ c, In c view → Contact.email_validation_result c = Some mode)
  ∧ ((∀ c, In c (contactList s) →
           Contact.email_validation_result c = Some mode →
           Contact.email_validated c = true) →
     ∀ c, In c view → Contact.email_validated c = true).
Proof.
  intros Hwf Hmode Hfilter.
  destruct (filterContacts_spec s Hwf) as (s' & -> & Hview & _).
  cbn. rewrite Hview.
  assert (Hkeeps : ∀ c, keeps s c
                        = (passesSearch s c && passesTrigger s c && matchesResult mode c)%bool).
  { intros c. unfold keeps, passesValidation. rewrite Hfilter.
    simpl in Hmode. destruct Hmode as [<-|[<-|[<-|[]]]]; reflexivity. }
  assert (Hin : ∀ c, In c (js_sort compareScore (List.filter (keeps s) (contactList s))) →
                     In c (contactList s) ∧ Contact.email_validation_result c = Some mode).
  { intros c Hc. apply (Permutation_in _ (js_sort_perm _ _)) in Hc.
    apply filter_In in Hc. destruct Hc as [Hc Hk]. split; [exact Hc|].
    rewrite Hkeeps in Hk. apply andb_prop in Hk. destruct Hk as [_ Hk].
    unfold matchesResult, field_is in Hk.
    destruct (Contact.email_validation_result c) as [v|]; [|discriminate].
    apply String.eqb_eq in Hk. now subst. }
  repeat split.
  - rewrite js_sort_perm. now rewrite (filter_ext _ _ Hkeeps).
  - intros c Hc. now apply Hin.
  - intros Hdata c Hc. apply Hin in Hc. destruct Hc. now apply Hdata.
Qed.

End FilterContactsClaims.

Lemma filterContacts_sorted_and_stable_witness :
  let s := pageWith [ann; bob; cat; dan] "" "all" "validated" in
  let view := ContactManagement.filteredList (final_state (ContactManagement.filterContacts s)) in
  view = [bob; ann; dan]
  ∧ StronglySorted (λ a b, (ContactManagement.score b <= ContactManagement.score a)%Q) view.
Proof.
  split; [vm_compute; reflexivity|].
  apply (filterContacts_sorted_and_stable (pageWith [ann; bob; cat; dan] "" "all" "validated")).
  vm_compute. eauto.
Defined.

Lemma result_filter_keeps_matching_witness :
  let s := pageWith [ann; bob; dan] "" "all" "valid" in
  let view := ContactManagement.filteredList (final_state (ContactManagement.filterContacts s)) in
  view = [ann; dan] ∧ ∀ c, In c view → Contact.email_validated c = true.
Proof.
  split; [vm_compute; reflexivity|].
  apply (result_filter_keeps_matching (pageWith [ann; bob; dan] "" "all" "valid") "valid").
  - vm_compute. eauto.
  - simpl. auto.
  - reflexivity.
  - intros c Hc _. vm_compute in Hc.
    destruct Hc as [<-|[<-|[<-|[]]]]; reflexivity.
Defined.

(** ** ContactManagement: the select-all control *)

Section SelectAll.
Import ContactManagement.

Lemma dispatch_final handler s :
  final_state (dispatch handler s)
  = let s1 := final_state (handler s) in
    if depsChanged s s1 then final_state (filterContacts s1) else s1.
Proof.
  unfold dispatch. run_handler.
  destruct (handler s) as [[[] s1] e1]. simpl.
  destruct (depsChanged s s1); [|reflexivity].
  now destruct (filterContacts s1) as [[[] s2] e2].
Qed.

Lemma NoDup_map_filter {A B} (f : A → B) (p : A → bool) (l : list A) :
  List.NoDup (map f l) → List.NoDup (map f (List.filter p l)).
Proof.
  induction l as [|x l IH]; simpl; intros H; [constructor|].
  apply List.NoDup_cons_iff in H. destruct H as [Hx Hl].
  destruct (p x); simpl; [|now apply IH].
  apply List.NoDup_cons_iff. split; [|now apply IH].
  intros Hin. apply Hx. apply in_map_iff in Hin. destruct Hin as (y & <- & Hy).
  apply in_map. apply filter_In in Hy. tauto.
Qed.

Lemma NoDup_ids_sort (cmp : Contact.t → Contact.t → Q) (l : list Contact.t) :
  List.NoDup (map Contact.id l) → List.NoDup (map Contact.id (js_sort cmp l)).
Proof.
  apply Permutation_NoDup, Permutation_map, Permutation_sym, js_sort_perm.
Qed.

Lemma filterContacts_consistent s :
  settled s → consistent (final_state (filterContacts s)).
Proof.
  intros (Hwf & Hids & Hsel).
  destruct (filterContacts_spec s Hwf)
    as (s' & -> & Hview & Hcs & _ & _ & [Hw1 Hw2] & _ & Hsel' & _).
  cbn. unfold consistent, settled, visibleIds. rewrite Hview, Hcs, Hsel'.
  repeat split; try assumption.
  - destruct (noFilter s); [now apply NoDup_ids_sort|assumption].
  - now apply NoDup_ids_sort, NoDup_map_filter.
Qed.

(** A handler followed by its render keeps the page consistent, provided
    the handler leaves the page settled and touches the arrays only when it
    replaces [contacts]. *)
Lemma dispatch_consistent handler s :
  consistent s →
  settled (final_state (handler s)) →
  (depsChanged s (final_state (handler s)) = false →
   store (final_state (handler s)) = store s
   ∧ filteredContacts (final_state (handler s)) = filteredContacts s) →
  consistent (final_state (dispatch handler s)).
Proof.
  intros (_ & Hf & Hvis) Hsettled Hsame. rewrite dispatch_final. cbn zeta.
  destruct (depsChanged s (final_state (handler s))) eqn:E.
  - now apply filterContacts_consistent.
  - destruct (Hsame eq_refl) as [Hstore Href].
    split; [exact Hsettled|].
    unfold visibleIds, filteredList. rewrite Hstore, Href. split; assumption.
Qed.

Lemma arrays_kept_consistent handler s :
  consistent s →
  store (final_state (handler s)) = store s →
  contacts (final_state (handler s)) = contacts s →
  filteredContacts (final_state (handler s)) = filteredContacts s →
  List.NoDup (selectedContacts (final_state (handler s))) →
  consistent (final_state (dispatch handler s)).
Proof.
  intros Hs Hstore Hc Hf Hsel.
  apply dispatch_consistent; [exact Hs| |auto].
  destruct Hs as ((Hwf & Hids & _) & _).
  unfold settled, contactList. rewrite Hstore, Hc. auto.
Qed.

Lemma refetched_consistent net handler s :
  consistent s →
  distinct_ids net →
  refetched net s (final_state (handler s)) →
  List.NoDup (selectedContacts (final_state (handler s))) →
  consistent (final_state (dispatch handler s)).
Proof.
  intros Hs Hnet (ok & data & companies & Hreply & Hdata & Hstore & Hc & _) Hsel.
  destruct Hs as ((Hwf & Hids & Hsel0) & Hf & Hvis).
  apply dispatch_consistent.
  - repeat split; assumption.
  - unfold settled, contactList, elems. rewrite Hstore, Hc, lookup_insert_eq. simpl.
    repeat split; eauto.
  - unfold depsChanged. rewrite Hc.
    destruct (Pos.eqb_spec (contacts s) (fresh (dom (store s)))) as [E|_];
      [|discriminate].
    exfalso. apply (is_fresh (dom (store s))). rewrite <- E.
    now apply elem_of_dom.
Qed.

(** The two outcomes of [fetchContacts]. *)
Lemma fetchContacts_final net s :
  let s1 := final_state (fetchContacts net s) in
  selectedContacts s1 = selectedContacts s
  ∧ (same_data s s1 ∨ refetched net s s1).
Proof.
  unfold fetchContacts, fetchFailed, alloc, setContactsRef, setStore, setLoading,
    same_data, refetched.
  run_handler.
  destruct (net companiesRequest) as [|[] data] eqn:R; simpl; auto 10.
  destruct (success data); simpl; auto 10.
  destruct (data_companies data) as [companies|] eqn:D; simpl; auto 10.
  split; [reflexivity|]. right. exists true, data, companies. auto 10.
Qed.

(** The outcomes of [validateSelectedContacts]. *)
Lemma validate_final net s :
  let s1 := final_state (validateSelectedContacts net s) in
  (same_data s s1 ∧ selectedContacts s1 = selectedContacts s)
  ∨ ((same_data s s1 ∨ refetched net s s1) ∧ selectedContacts s1 = []).
Proof.
  unfold validateSelectedContacts. run_handler.
  destruct (selectedContacts s) as [|i sel] eqn:E; simpl.
  { left. rewrite E. repeat split. }
  destruct (net (PostValidateContacts (i :: sel))) as [|ok data]; simpl.
  { left. rewrite E. repeat split. }
  destruct (success data); simpl.
  2: { left. rewrite E. repeat split. }
  right.
  match goal with
  | |- context [fetchContacts net ?s0] =>
      pose proof (fetchContacts_final net s0) as [_ H];
      destruct (fetchContacts net s0) as [[[] s1] e1]
  end.
  unfold setSelectedContacts, setValidating. run_handler.
  split; [|reflexivity].
  unfold same_data, refetched in *. simpl in *. exact H.
Qed.

Lemma not_selected_not_in s i : isSelected s i = false → ¬ In i (selectedContacts s).
Proof.
  unfold isSelected. intros H Hin.
  assert (existsb (strict_eq i) (selectedContacts s) = true) as E.
  { apply existsb_exists. exists i. split; [exact Hin|]. apply Z.eqb_refl. }
  congruence.
Qed.

Lemma NoDup_snoc {A} (l : list A) (x : A) :
  List.NoDup l → ¬ In x l → List.NoDup (l ++ [x]).
Proof.
  induction 1 as [|y l Hy Hl IH]; simpl; intros Hx.
  - repeat constructor. intros [].
  - constructor.
    + rewrite in_app_iff. simpl. intros [H|[H|[]]]; [now apply Hy|].
      apply Hx. now left.
    + apply IH. intros H. apply Hx. now right.
Qed.

Lemma final_get {S A} (k : S → M S A) (s : S) :
  final_state ((get ≫= k) s) = final_state (k s s).
Proof.
  unfold mbind, M_bind, get, final_state. now destruct (k s s) as [[b s2] e2].
Qed.

Lemma step_consistent s e :
  consistent s → event_distinct e → consistent (step s e).
Proof.
  intros Hs He. pose proof Hs as ((_ & _ & Hsel) & _ & Hvis).
  unfold step. destruct e as [v|v|v| |i| |net]; cbn [handle].
  - now apply arrays_kept_consistent.
  - now apply arrays_kept_consistent.
  - now apply arrays_kept_consistent.
  - now apply arrays_kept_consistent.
  - rewrite final_get.
    destruct (existsb (strict_eq i) (visibleIds s)); [|exact Hs].
    apply arrays_kept_consistent; try exact Hs;
      unfold handleSelectContact, setSelectedContacts; run_handler;
      destruct (isSelected s i) eqn:E; simpl; try reflexivity.
    + now apply List.NoDup_filter.
    + apply not_selected_not_in in E.
      apply NoDup_snoc; assumption.
  - rewrite final_get.
    apply arrays_kept_consistent; try exact Hs;
      unfold handleSelectAll, setSelectedContacts; run_handler;
      destruct (selectAllChecked s); simpl; try reflexivity;
      [constructor|exact Hvis].
  - pose proof (validate_final net s) as H. cbn zeta in H.
    destruct H as [[(H1 & H2 & H3 & _) Hsame]|[[(H1 & H2 & H3 & _)|H] Hnil]].
    + apply arrays_kept_consistent; try assumption. now rewrite Hsame.
    + apply arrays_kept_consistent; try assumption. rewrite Hnil. constructor.
    + apply (refetched_consistent net); try assumption. rewrite Hnil. constructor.
Qed.

Lemma initial_settled : settled initial.
Proof.
  unfold settled, contactList, elems. cbn.
  repeat split; [eauto|constructor|constructor].
Qed.

Lemma mounted_consistent net : distinct_ids net → consistent (mounted net).
Proof.
  intros Hnet. unfold mounted, mount.
  pose proof (filterContacts_consistent _ initial_settled) as H0.
  unfold mbind at 1, M_bind at 1.
  destruct (filterContacts initial) as [[[] s0] e0]. cbn in H0.
  assert (Hs : consistent (final_state (dispatch (fetchContacts net) s0))).
  { pose proof (fetchContacts_final net s0) as [Hsel [(H1 & H2 & H3 & _)|H]];
      cbn zeta in *.
    - apply arrays_kept_consistent; try assumption.
      rewrite Hsel. apply H0.
    - apply (refetched_consistent net); try assumption.
      rewrite Hsel. apply H0. }
  now destruct (dispatch (fetchContacts net) s0) as [[[] s1] e1].
Qed.

Lemma fold_step_consistent events s :
  consistent s → Forall event_distinct events → consistent (fold_left step events s).
Proof.
  revert s. induction events as [|e events IH]; intros s Hs Hev; [exact Hs|].
  apply Forall_cons_iff in Hev. destruct Hev as [He Hev].
  simpl. apply IH; [|exact Hev]. now apply step_consistent.
Qed.

Lemma run_consistent net events :
  distinct_ids net → Forall event_distinct events → consistent (run net events).
Proof.
  intros Hnet Hev. apply fold_step_consistent; [|exact Hev].
  now apply mounted_consistent.
Qed.

(** When select-all shows checked, a selection without repetition that
    lies within the view covers the view. *)
Lemma checked_selection_covers_view s :
  selectAllChecked s = true →
  List.NoDup (selectedContacts s) →
  incl (selectedContacts s) (visibleIds s) →
  ∀ i, In i (selectedContacts s) ↔ In i (visibleIds s).
Proof.
  unfold selectAllChecked. intros Hc Hnd Hincl i.
  apply andb_prop in Hc. destruct Hc as [Hlen _]. apply Nat.eqb_eq in Hlen.
  split; [apply Hincl|].
  apply (NoDup_length_incl Hnd); [|exact Hincl].
  unfold visibleIds. rewrite length_map. lia.
Qed.

(** C7 (as stated) fails: after loading [ann] and [bob], ticking [ann] and
    searching for bob, the view holds [bob] alone and the selection holds
    [ann] alone; the two have the same size, so select-all shows checked. *)
Lemma checked_with_selection_outside_view :
  let s := run acmeBackend [ClickContact 1; TypeSearch "bob"] in
  reachable s
  ∧ selectedContacts s = [1%Z]
  ∧ visibleIds s = [2%Z]
  ∧ selectAllChecked s = true
  ∧ ¬ ∀ i, In i (selectedContacts s) ↔ In i (visibleIds s).
Proof.
  split; [now exists acmeBackend, [ClickContact 1; TypeSearch "bob"]|].
  split; [vm_compute; reflexivity|].
  split; [vm_compute; reflexivity|].
  split; [vm_compute; reflexivity|].
  intros H. destruct (proj1 (H 1%Z)) as [E|[]].
  - vm_compute. now left.
  - vm_compute in E. discriminate E.
Qed.

(** A repeated identifier breaks the correspondence as well, even when
    every selected identifier is on display: with [ann; annabel; bob]
    loaded, searching for "ann", selecting all and then searching for "b"
    leaves the selection [1; 1] in front of the view [bob; annabel]. *)
Lemma checked_with_repeated_identifier :
  let s := run repeatingBackend [TypeSearch "ann"; ClickSelectAll; TypeSearch "b"] in
  selectedContacts s = [1%Z; 1%Z]
  ∧ visibleIds s = [2%Z; 1%Z]
  ∧ selectAllChecked s = true
  ∧ incl (selectedContacts s) (visibleIds s)
  ∧ ¬ In 2%Z (selectedContacts s).
Proof.
  split; [vm_compute; reflexivity|].
  split; [vm_compute; reflexivity|].
  split; [vm_compute; reflexivity|].
  split.
  - vm_compute. intros i [<-|[<-|[]]]; auto.
  - vm_compute. intros [E|[E|[]]]; discriminate E.
Qed.

(** The other direction: on a consistent page, a selection that holds
    exactly the identifiers of a non-empty view shows as checked. *)
Lemma selected_view_shows_checked s :
  consistent s →
  (∀ i, In i (selectedContacts s) ↔ In i (visibleIds s)) →
  visibleIds s ≠ [] →
  selectAllChecked s = true.
Proof.
  intros ((_ & _ & Hsel) & _ & Hvis) Hsame Hne.
  assert (Hlen : length (selectedContacts s) = length (visibleIds s))
    by (apply Permutation_length, Stdlib.Sorting.Permutation.NoDup_Permutation;
        assumption).
  unfold selectAllChecked. unfold visibleIds in Hlen, Hne.
  rewrite length_map in Hlen. rewrite Hlen, Nat.eqb_refl. simpl.
  apply Nat.ltb_lt. destruct (filteredList s); [contradiction|simpl; lia].
Qed.

(** C7 (as amended).  In every state the page reaches with a backend that
    never repeats a contact identifier, whenever select-all shows checked
    the selection has as many entries as the non-empty view; and if every
    selected identifier is on display, the selection and the view hold the
    same identifiers. *)
Theorem checked_selection_within_view net events :
  distinct_ids net →
  Forall event_distinct events →
  let s := run net events in
  reachable s
  ∧ (selectAllChecked s = true →
     length (selectedContacts s) = length (visibleIds s)
     ∧ visibleIds s ≠ []
     ∧ (incl (selectedContacts s) (visibleIds s) →
        ∀ i, In i (selectedContacts s) ↔ In i (visibleIds s))).
Proof.
  intros Hnet Hev s. split; [now exists net, events|].
  intros Hc.
  pose proof (run_consistent net events Hnet Hev) as ((_ & _ & Hsel) & _).
  fold s in Hsel.
  pose proof Hc as Hc'. unfold selectAllChecked in Hc'.
  apply andb_prop in Hc'. destruct Hc' as [Hlen Hpos].
  apply Nat.eqb_eq in Hlen. apply Nat.ltb_lt in Hpos.
  split; [|split].
  - unfold visibleIds. now rewrite length_map.
  - unfold visibleIds. destruct (filteredList s); simpl in *; [lia|discriminate].
  - intros Hincl. now apply checked_selection_covers_view.
Qed.

End SelectAll.

Lemma acmeBackend_distinct : distinct_ids acmeBackend.
Proof.
  intros ok data companies Hreply Hdata. vm_compute in Hreply.
  injection Hreply as _ <-. injection Hdata as <-.
  vm_compute. repeat constructor; simpl; intuition discriminate.
Qed.

Lemma checked_selection_within_view_witness :
  let s := ContactManagement.run acmeBackend
             [ContactManagement.TypeSearch "bob"; ContactManagement.ClickSelectAll;
              ContactManagement.ClickValidate refuseAll] in
  ContactManagement.selectAllChecked s = true
  ∧ ∀ i, In i (ContactManagement.selectedContacts s) ↔ In i (ContactManagement.visibleIds s).
Proof.
  destruct (checked_selection_within_view acmeBackend
              [ContactManagement.TypeSearch "bob"; ContactManagement.ClickSelectAll;
               ContactManagement.ClickValidate refuseAll])
    as (_ & H).
  - exact acmeBackend_distinct.
  - repeat constructor. intros ok data companies Hreply Hdata.
    vm_compute in Hreply. injection Hreply as _ <-. discriminate Hdata.
  - split; [vm_compute; reflexivity|].
    apply H; [vm_compute; reflexivity|].
    vm_compute. intros i Hi. exact Hi.
Defined.

(** ** ContactManagement: validation *)

Section Validate.
Import ContactManagement.
Variable net : Net.

(** C8.  For a non-empty selection: when the reply to the validation
    request reports success, the handler issues the request that re-fetches
    the contact collection and leaves the selection empty; when the reply
    does not report success (or the request fails), the selection, the
    store and the references are as before, no re-fetch is issued, and an
    error message is shown. *)
Theorem validate_clears_selection_on_success s :
  selectedContacts s ≠ [] →
  let r := validateSelectedContacts net s in
  if reports_success (validate_reply net s) then
    selectedContacts (final_state r) = []
    ∧ In (Fetch companiesRequest) (effects r)
  else
    selectedContacts (final_state r) = selectedContacts s
    ∧ store (final_state r) = store s
    ∧ contacts (final_state r) = contacts s
    ∧ ¬ In (Fetch companiesRequest) (effects r)
    ∧ ∃ t, In (Toast t) (effects r) ∧ destructive t = true.
Proof.
  intros Hsel.
  unfold validateSelectedContacts, validate_reply, reports_success, fetchContacts,
    fetchFailed, alloc, setContactsRef, setStore, setLoading, setSelectedContacts,
    setValidating, companiesRequest.
  run_handler.
  destruct (selectedContacts s) as [|i sel] eqn:E; [done|]. simpl.
  destruct (net (PostValidateContacts (i :: sel))) as [|ok data]; simpl.
  - repeat split; try reflexivity; try (now rewrite E).
    + intros [H|[H|[]]]; discriminate H.
    + eexists. split; [right; left; reflexivity|reflexivity].
  - destruct (success data); simpl.
    + case_replies net; auto.
    + repeat split; try reflexivity; try (now rewrite E).
      * intros [H|[H|[]]]; discriminate H.
      * eexists. split; [right; left; reflexivity|reflexivity].
Qed.

End Validate.

Lemma validate_clears_selection_on_success_witness :
  let s := final_state ((ContactManagement.filterContacts;;
                        ContactManagement.handleSelectAll true)
                         (pageWith [ann; bob] "" "all" "all")) in
  ContactManagement.selectedContacts
    (final_state (ContactManagement.validateSelectedContacts acceptAll s)) = []
  ∧ ContactManagement.selectedContacts
      (final_state (ContactManagement.validateSelectedContacts refuseAll s))
    = ContactManagement.selectedContacts s.
Proof.
  split.
  - apply (validate_clears_selection_on_success acceptAll
             (final_state ((ContactManagement.filterContacts;;
                            ContactManagement.handleSelectAll true)
                             (pageWith [ann; bob] "" "all" "all")))).
    vm_compute. discriminate.
  - apply (validate_clears_selection_on_success refuseAll
             (final_state ((ContactManagement.filterContacts;;
                            ContactManagement.handleSelectAll true)
                             (pageWith [ann; bob] "" "all" "all")))).
    vm_compute. discriminate.
Defined.

(** ** LeadDiscovery *)

Section Discover.
Import LeadDiscovery.
Variable net : Net.

(** C9.  With no trigger type selected, [discoverLeads] shows an error
    message and returns: no request is issued and the state, the list of
    discovered companies included, is as before. *)
Theorem discover_requires_trigger s :
  triggerTypes s = [] →
  let r := discoverLeads net s in
  final_state r = s
  ∧ effects r = [Toast (error_toast "Please select at least one trigger type")]
  ∧ List.filter is_fetch (effects r) = []
  ∧ discoveredCompanies (final_state r) = discoveredCompanies s.
Proof.
  intros Hnone. unfold discoverLeads. run_handler. rewrite Hnone. simpl. auto.
Qed.

(** A limit input that does not start with a number, or that reads as 0,
    sets the limit to the default 20. *)
Lemma limit_defaults_to_20 value s :
  parseInt value = None ∨ parseInt value = Some 0%Z →
  limitPerType (final_state (onLimitChange value s)) = 20%Z.
Proof.
  intros [H|H]; unfold onLimitChange, setLimitPerType; run_handler; now rewrite H.
Qed.

(** Any other limit input is stored as it reads, whatever its size. *)
Lemma limit_stored_as_typed value n s :
  parseInt value = Some n → n ≠ 0%Z →
  limitPerType (final_state (onLimitChange value s)) = n.
Proof.
  intros H Hn. unfold onLimitChange, setLimitPerType. run_handler. rewrite H. simpl.
  destruct (Z.eqb_spec n 0); [contradiction|reflexivity].
Qed.

(** The request carries the limit of the state as it is. *)
Lemma discover_submits_state_limit s :
  triggerTypes s ≠ [] →
  submittedLimits (effects (discoverLeads net s)) = [limitPerType s].
Proof.
  intros Hsome. unfold discoverLeads. run_handler.
  destruct (triggerTypes s) as [|t ts] eqn:E; [done|]. simpl.
  destruct (net _) as [|ok data]; simpl; [reflexivity|].
  destruct (success data); reflexivity.
Qed.

End Discover.

Lemma discover_requires_trigger_witness :
  let s := final_state
             ((LeadDiscovery.handleTriggerChange "hiring" false;;
               LeadDiscovery.handleTriggerChange "funding" false;;
               LeadDiscovery.handleTriggerChange "outdated_tech" false)
                LeadDiscovery.initial) in
  final_state (LeadDiscovery.discoverLeads acceptAll s) = s.
Proof.
  apply (discover_requires_trigger acceptAll). vm_compute. reflexivity.
Defined.

(** A negative limit passes as well. *)
Lemma negative_limit_is_submitted :
  let r := (LeadDiscovery.onLimitChange "-5";; LeadDiscovery.discoverLeads acceptAll)
             LeadDiscovery.initial in
  LeadDiscovery.submittedLimits (effects r) = [(-5)%Z]
  ∧ (-5 < LeadDiscovery.limitMin)%Z.
Proof. split; vm_compute; reflexivity. Qed.

(** C10.  The claim fails when 500 is typed into the limit input (whose
    [max] is 100) and discovery is started: the request carries
    limit_per_type = 500. *)
Theorem typed_limit_is_submitted_unclamped :
  let r := (LeadDiscovery.onLimitChange "500";; LeadDiscovery.discoverLeads acceptAll)
             LeadDiscovery.initial in
  LeadDiscovery.submittedLimits (effects r) = [500%Z]
  ∧ (LeadDiscovery.limitMax < 500)%Z.
Proof. split; vm_compute; reflexivity. Qed.

(** * Further properties *)

Ltac run_generic :=
  unfold mbind, Handler_bind, mret, Handler_ret, current, update, record,
    state_after, log_of; simpl.

(** ** EmailCampaigns: generation *)

Section Generate.
Import EmailCampaigns.
Variable net : Campaign.Request → Campaign.Outcome.

(** The request that [generateEmails] sends from a state. *)
Let request (s : State) : Campaign.Request :=
  Campaign.PostGenerateEmails (selectedContacts s) (selectedTemplate s).

(** X1.  With nothing selected, [generateEmails] shows an error message and
    returns: no request is sent and no cell changes. *)
Theorem generate_requires_selection s :
  selectedContacts s = [] →
  runHandler (Campaign.generateEmails net) s
  = (tt, s, [Campaign.Toast (error_toast "Please select contacts to generate emails for")]).
Proof.
  intros Hsel. unfold Campaign.generateEmails, Campaign.toast. run_generic.
  rewrite Hsel. reflexivity.
Qed.

(** X2.  With a non-empty selection [generateEmails] sends one request,
    for the selection and the chosen template.  A reply that reports
    success replaces the whole batch by the emails of the reply (by the
    empty batch when the reply has none), whatever the batch was; any other
    outcome leaves the batch as it was and shows an error message.  The
    selection and the contacts are never touched, and the busy flag is
    cleared in every case. *)
Theorem generate_replaces_or_keeps_batch s :
  selectedContacts s ≠ [] →
  let r := runHandler (Campaign.generateEmails net) s in
  List.filter Campaign.is_fetch (log_of r) = [Campaign.Fetch (request s)]
  ∧ selectedContacts (state_after r) = selectedContacts s
  ∧ contacts (state_after r) = contacts s
  ∧ isGenerating (state_after r) = false
  ∧ match net (request s) with
    | Campaign.Reply data =>
        if Campaign.success data then
          generatedEmails (state_after r) = or_nil (Campaign.generated_emails data)
        else
          generatedEmails (state_after r) = generatedEmails s
          ∧ ∃ t, In (Campaign.Toast t) (log_of r) ∧ destructive t = true
    | Campaign.NetworkFailure =>
        generatedEmails (state_after r) = generatedEmails s
        ∧ ∃ t, In (Campaign.Toast t) (log_of r) ∧ destructive t = true
    end.
Proof.
  intros Hsel. subst request.
  unfold Campaign.generateEmails, Campaign.toast, Campaign.fetch,
    Campaign.setIsGenerating, Campaign.setGeneratedEmails.
  run_generic.
  destruct (selectedContacts s) as [|i sel] eqn:E; [done|]. simpl.
  destruct (net _) as [|data]; simpl.
  - repeat split; try (now rewrite E).
    eexists. split; [right; left; reflexivity|reflexivity].
  - destruct (Campaign.success data); simpl.
    + repeat split; now rewrite E.
    + repeat split; try (now rewrite E).
      eexists. split; [right; left; reflexivity|reflexivity].
Qed.

End Generate.

(** ** EmailCampaigns: sending, fetching, preview *)

Section Send.
Import EmailCampaigns.
Variable net : Net.

(** X3.  Unless the send is live and its reply reports success, a send of a
    non-empty batch changes no cell but the busy flag, which ends cleared:
    the batch, the selection and the contacts are as before and nothing is
    re-fetched.  When the reply does not report success, an error message
    is shown. *)
Theorem send_without_lasting_effect s :
  generatedEmails s ≠ [] →
  testMode s = true ∨ ¬ send_succeeds net s →
  let r := sendEmails net s in
  final_state r
  = mkState (contacts s) (selectedContacts s) (generatedEmails s)
      (selectedTemplate s) (isGenerating s) false (testMode s)
  ∧ List.filter is_fetch (effects r)
    = [Fetch (PostSendEmails (emailsToSend s) (testMode s))]
  ∧ (¬ send_succeeds net s →
     ∃ t, In (Toast t) (effects r) ∧ destructive t = true).
Proof.
  intros Hgen Hcase.
  unfold send_succeeds in *.
  unfold sendEmails, setIsSending. run_handler.
  destruct (generatedEmails s) as [|g gs] eqn:E; [done|]. simpl.
  destruct (net (PostSendEmails (emailsToSend s) (testMode s))) as [|ok data] eqn:R;
    simpl.
  - repeat split; try (now rewrite E).
    intros _. eexists. split; [right; left; reflexivity|reflexivity].
  - destruct (success data) eqn:S; simpl.
    + destruct (testMode s) eqn:T; simpl.
      * repeat split; try (now rewrite E).
        intros H. destruct H. eauto.
      * destruct Hcase as [H|H]; [discriminate H|]. destruct H. eauto.
    + repeat split; try (now rewrite E).
      intros _. eexists. split; [right; left; reflexivity|reflexivity].
Qed.

(** X4.  [fetchContacts] never touches the selection, the batch or the
    other cells, and never shows a message: the contacts are replaced by
    those of the reply (by none when the reply has no list) when the
    response is ok and reports success, and are left as they were
    otherwise. *)
Theorem campaign_fetchContacts_frame s :
  let r := fetchContacts net s in
  final_state r
  = mkState
      (match net filterContactsRequest with
       | Reply true data =>
           if success data then or_nil (data_contacts data) else contacts s
       | _ => contacts s
       end)
      (selectedContacts s) (generatedEmails s) (selectedTemplate s)
      (isGenerating s) (isSending s) (testMode s)
  ∧ List.filter is_fetch (effects r) = [Fetch filterContactsRequest]
  ∧ ∀ t, ¬ In (Toast t) (effects r).
Proof.
  unfold fetchContacts, setContacts. run_handler.
  destruct (net filterContactsRequest) as [|[] data]; simpl.
  - destruct s. repeat split. intros t [H|[H|[]]]; discriminate H.
  - destruct (success data); simpl; destruct s; repeat split;
      intros t [H|[]]; discriminate H.
  - destruct s. repeat split. intros t [H|[]]; discriminate H.
Qed.

End Send.

Lemma send_without_lasting_effect_witness :
  let s := sampleCampaign false in
  EmailCampaigns.generatedEmails (final_state (EmailCampaigns.sendEmails refuseAll s))
  = EmailCampaigns.generatedEmails s
  ∧ EmailCampaigns.selectedContacts (final_state (EmailCampaigns.sendEmails refuseAll s))
    = [1%Z].
Proof.
  destruct (send_without_lasting_effect refuseAll (sampleCampaign false)) as (H & _).
  - discriminate.
  - right. intros (ok & data & Hreply & Hok). vm_compute in Hreply.
    injection Hreply as _ <-. discriminate Hok.
  - cbn zeta in *. rewrite H. split; reflexivity.
Defined.

(** In test mode a send changes no cell but the busy flag, whatever the
    outcome. *)
Lemma sendEmails_test_mode_state net s :
  EmailCampaigns.generatedEmails s ≠ [] →
  EmailCampaigns.testMode s = true →
  final_state (EmailCampaigns.sendEmails net s)
  = EmailCampaigns.mkState (EmailCampaigns.contacts s)
      (EmailCampaigns.selectedContacts s) (EmailCampaigns.generatedEmails s)
      (EmailCampaigns.selectedTemplate s) (EmailCampaigns.isGenerating s) false true.
Proof.
  intros Hgen Hmode.
  unfold EmailCampaigns.sendEmails, EmailCampaigns.setIsSending. run_handler.
  destruct (EmailCampaigns.generatedEmails s) as [|g gs] eqn:E; [done|]. simpl.
  rewrite Hmode.
  destruct (net _) as [|ok data]; simpl; [now rewrite E|].
  destruct (success data); simpl; now rewrite E.
Qed.

(** X5.  A dry run followed by a live run: after a test send of a batch
    (whatever its outcome) and a click that clears test mode, the live send
    submits the very items of the dry run, and when its reply reports
    success the batch and the selection end empty. *)
Theorem dry_run_then_live_run net1 net2 s :
  EmailCampaigns.generatedEmails s ≠ [] →
  EmailCampaigns.testMode s = true →
  let s1 := final_state (EmailCampaigns.sendEmails net1 s) in
  let s2 := final_state (EmailCampaigns.setTestMode false s1) in
  EmailCampaigns.send_succeeds net2 s2 →
  let r := EmailCampaigns.sendEmails net2 s2 in
  EmailCampaigns.emailsToSend s2 = EmailCampaigns.emailsToSend s
  ∧ In (Fetch (PostSendEmails (EmailCampaigns.emailsToSend s) false)) (effects r)
  ∧ EmailCampaigns.generatedEmails (final_state r) = []
  ∧ EmailCampaigns.selectedContacts (final_state r) = [].
Proof.
  intros Hgen Hmode s1 s2 Hok r.
  assert (Hs2 : s2 = EmailCampaigns.mkState (EmailCampaigns.contacts s)
                  (EmailCampaigns.selectedContacts s) (EmailCampaigns.generatedEmails s)
                  (EmailCampaigns.selectedTemplate s) (EmailCampaigns.isGenerating s)
                  false false).
  { subst s2 s1. now rewrite (sendEmails_test_mode_state net1 s Hgen Hmode). }
  assert (Hitems : EmailCampaigns.emailsToSend s2 = EmailCampaigns.emailsToSend s)
    by now rewrite Hs2.
  destruct Hok as (ok & data & Hreply & Hok).
  rewrite Hitems in Hreply. split; [exact Hitems|].
  assert (Hlen : Nat.eqb (length (EmailCampaigns.generatedEmails s)) 0 = false).
  { destruct (EmailCampaigns.generatedEmails s); [done|reflexivity]. }
  subst r. rewrite Hs2 in *. clear Hs2 Hitems s1 s2.
  unfold EmailCampaigns.emailsToSend in *. simpl in Hreply.
  unfold EmailCampaigns.sendEmails, EmailCampaigns.fetchContacts,
    EmailCampaigns.setContacts, EmailCampaigns.setGeneratedEmails,
    EmailCampaigns.setSelectedContacts, EmailCampaigns.setIsSending,
    EmailCampaigns.emailsToSend.
  run_handler. rewrite Hlen. simpl. rewrite Hreply. simpl. rewrite Hok. simpl.
  destruct (net2 EmailCampaigns.filterContactsRequest) as [|[] d]; simpl;
    [|destruct (success d); simpl|]; auto 10.
Qed.

Section Preview.
Variable net : Campaign.Request → Campaign.Outcome.

(** X6.  A preview can be asked for any contact in any state of the page.
    It sends one request and never touches the cells of the campaign
    (contacts, selection, batch, flags).  A reply that reports success is
    stored and opens the dialog, without any message; any other outcome
    leaves the dialog as it was and shows an error message. *)
Theorem preview_leaves_campaign contactId p :
  let request :=
    Campaign.PostPreviewEmail contactId (EmailCampaigns.selectedTemplate (Campaign.cells p)) in
  let r := runHandler (Campaign.previewEmailForContact net contactId) p in
  Campaign.cells (state_after r) = Campaign.cells p
  ∧ List.filter Campaign.is_fetch (log_of r) = [Campaign.Fetch request]
  ∧ match net request with
    | Campaign.Reply data =>
        if Campaign.success data then
          Campaign.previewEmail (state_after r) = Some data
          ∧ Campaign.showPreview (state_after r) = true
          ∧ log_of r = [Campaign.Fetch request]
        else
          Campaign.previewEmail (state_after r) = Campaign.previewEmail p
          ∧ Campaign.showPreview (state_after r) = Campaign.showPreview p
          ∧ ∃ t, In (Campaign.Toast t) (log_of r) ∧ destructive t = true
    | Campaign.NetworkFailure =>
        Campaign.previewEmail (state_after r) = Campaign.previewEmail p
        ∧ Campaign.showPreview (state_after r) = Campaign.showPreview p
        ∧ ∃ t, In (Campaign.Toast t) (log_of r) ∧ destructive t = true
    end.
Proof.
  unfold Campaign.previewEmailForContact, Campaign.toast, Campaign.fetch,
    Campaign.setPreviewEmail, Campaign.setShowPreview.
  run_generic.
  destruct (net _) as [|data]; simpl.
  - repeat split. eexists. split; [right; left; reflexivity|reflexivity].
  - destruct (Campaign.success data); simpl.
    + repeat split.
    + repeat split. eexists. split; [right; left; reflexivity|reflexivity].
Qed.

End Preview.

Section CampaignSelection.
Import EmailCampaigns.

Lemma existsb_strict_eq_In (i : Id) (l : list Id) :
  existsb (strict_eq i) l = true ↔ In i l.
Proof.
  rewrite existsb_exists. unfold strict_eq. split.
  - intros (x & Hx & E). apply Z.eqb_eq in E. now subst.
  - intros H. exists i. split; [exact H|apply Z.eqb_refl].
Qed.

(** X7.  Select-all on the campaign page selects the identifiers of all
    loaded contacts, in their order and whatever was selected before: every
    row shows ticked, and the control shows checked exactly when there is a
    contact.  Clearing it empties the selection, which disables the
    Generate button. *)
Theorem campaign_select_all s :
  let on := final_state (Campaign.handleSelectAll true s) in
  let off := final_state (Campaign.handleSelectAll false s) in
  selectedContacts on = map Contact.id (contacts s)
  ∧ (∀ c, In c (contacts s) → Campaign.isSelected on (Contact.id c) = true)
  ∧ Campaign.selectAllChecked on = Nat.ltb 0 (length (contacts s))
  ∧ selectedContacts off = []
  ∧ Campaign.selectAllChecked off = false
  ∧ Campaign.generateDisabled off = true.
Proof.
  unfold Campaign.handleSelectAll, setSelectedContacts, Campaign.selectAllChecked,
    Campaign.generateDisabled, Campaign.isSelected.
  run_handler. repeat split.
  - intros c Hc. apply existsb_strict_eq_In. now apply in_map.
  - now rewrite length_map, Nat.eqb_refl.
  - now destruct (length (contacts s)).
  - apply orb_true_r.
Qed.

Variable net : Net.
Variable gnet : Campaign.Request → Campaign.Outcome.

(** X8.  The buttons and the guards of the handlers agree: whenever the
    Send button is enabled [sendEmails] sends its request, and whenever the
    Generate button is enabled [generateEmails] sends its request; so a
    click never ends in the message of a guard. *)
Theorem enabled_buttons_send_requests s :
  (Campaign.sendDisabled s = false →
   In (Fetch (PostSendEmails (emailsToSend s) (testMode s))) (effects (sendEmails net s)))
  ∧ (Campaign.generateDisabled s = false →
     In (Campaign.Fetch (Campaign.PostGenerateEmails (selectedContacts s)
                           (selectedTemplate s)))
        (log_of (runHandler (Campaign.generateEmails gnet) s))).
Proof.
  unfold Campaign.sendDisabled, Campaign.generateDisabled. split; intros H.
  - apply orb_false_elim in H. destruct H as [_ H].
    unfold sendEmails, fetchContacts. run_handler. rewrite H. simpl.
    case_replies net; now left.
  - apply orb_false_elim in H. destruct H as [_ H].
    unfold Campaign.generateEmails, Campaign.fetch. run_generic. rewrite H.
    simpl. destruct (gnet _) as [|data]; [|destruct (Campaign.success data)];
      now left.
Qed.

End CampaignSelection.

Lemma enabled_buttons_send_requests_witness :
  let s := sampleCampaign true in
  In (Fetch (PostSendEmails (EmailCampaigns.emailsToSend s) true))
     (effects (EmailCampaigns.sendEmails acceptAll s))
  ∧ In (Campaign.Fetch (Campaign.PostGenerateEmails [1%Z] "hiring"))
       (log_of (runHandler (Campaign.generateEmails (λ _, Campaign.NetworkFailure)) s)).
Proof.
  destruct (enabled_buttons_send_requests acceptAll (λ _, Campaign.NetworkFailure)
              (sampleCampaign true)) as [H1 H2].
  split; [apply H1|apply H2]; reflexivity.
Defined.

Section ContactSelection.
Import ContactManagement.

(** X9.  Unticking a contact removes every occurrence of its identifier
    from the selection and keeps the other identifiers in their order;
    unticking a contact that is not selected changes nothing; and ticking a
    contact that is not selected, then unticking it, gives back the
    selection. *)
Theorem untick_removes_contact s i :
  let off := selectedContacts (final_state (handleSelectContact i false s)) in
  let on := final_state (handleSelectContact i true s) in
  ¬ In i off
  ∧ off = List.filter (λ j, negb (strict_eq j i)) (selectedContacts s)
  ∧ (∀ j, j ≠ i → (In j off ↔ In j (selectedContacts s)))
  ∧ (isSelected s i = false →
     off = selectedContacts s
     ∧ selectedContacts (final_state (handleSelectContact i false on))
       = selectedContacts s).
Proof.
  unfold handleSelectContact, setSelectedContacts, isSelected. run_handler.
  assert (Hkeep : ∀ l : list Id, ¬ In i l →
                    List.filter (λ j, negb (strict_eq j i)) l = l).
  { induction l as [|j l IH]; simpl; intros Hl; [reflexivity|].
    unfold strict_eq at 1. destruct (Z.eqb_spec j i) as [->|_]; simpl.
    - destruct Hl. now left.
    - rewrite IH; [reflexivity|]. intros H. apply Hl. now right. }
  split; [|split; [reflexivity|split]].
  - intros H. apply filter_In in H. destruct H as [_ H].
    unfold strict_eq in H. now rewrite Z.eqb_refl in H.
  - intros j Hj. rewrite filter_In. split; [tauto|].
    intros H. split; [exact H|].
    unfold strict_eq. now destruct (Z.eqb_spec j i).
  - intros Hsel.
    assert (Hnot : ¬ In i (selectedContacts s)).
    { intros Hin. apply existsb_strict_eq_In in Hin. congruence. }
    split; [now apply Hkeep|].
    rewrite List.filter_app. simpl. unfold strict_eq at 2. rewrite Z.eqb_refl. simpl.
    rewrite app_nil_r. now apply Hkeep.
Qed.

End ContactSelection.

Lemma untick_removes_contact_witness :
  let s := pageWith [ann; bob] "" "all" "all" in
  ContactManagement.selectedContacts
    (final_state (ContactManagement.handleSelectContact 1 false
       (final_state (ContactManagement.handleSelectContact 1 true s))))
  = ContactManagement.selectedContacts s.
Proof.
  apply (untick_removes_contact (pageWith [ann; bob] "" "all" "all") 1).
  reflexivity.
Defined.

(** ** ContactManagement: the search *)

Section Search.
Import ContactManagement.




Lemma lower_ascii_idem (c : ascii) : lower_ascii (lower_ascii c) = lower_ascii c.
Proof. destruct c as [[] [] [] [] [] [] [] []]; reflexivity. Qed.

Lemma toLowerCase_idem (s : string) : toLowerCase (toLowerCase s) = toLowerCase s.
Proof.
  induction s as [|c s IH]; simpl; [reflexivity|].
  now rewrite lower_ascii_idem, IH.
Qed.

Lemma toLowerCase_empty (s : string) : toLowerCase s = "" ↔ s = "".
Proof. destruct s; simpl; split; intros H; try reflexivity; discriminate H. Qed.



End Search.


(** ** ContactManagement: flattening the companies *)

Section Flatten.
Import ContactManagement.

Lemma filter_trigger_withCompany (value : string) (company : Company.t)
    (l : list Contact.t) :
  List.filter (matchesTrigger value) (map (withCompany company) l)
  = if field_is (Company.trigger_type company) value
    then map (withCompany company) l
    else [].
Proof.
  induction l as [|c l IH]; simpl; [now destruct (field_is _ _)|].
  unfold matchesTrigger at 1. simpl. rewrite IH.
  now destruct (field_is (Company.trigger_type company) value).
Qed.

(** X11.  Filtering the flattened contacts by a trigger gives the contacts
    of the companies that have this trigger, in the order of the reply:
    every contact carries the trigger of its company, whatever the contact
    record itself said. *)
Theorem trigger_filter_selects_companies (value : string) (companies : list Company.t) :
  List.filter (matchesTrigger value) (flattenContacts companies)
  = flattenContacts
      (List.filter (λ company, field_is (Company.trigger_type company) value) companies).
Proof.
  unfold flattenContacts.
  induction companies as [|company companies IH]; simpl; [reflexivity|].
  rewrite List.filter_app, IH, filter_trigger_withCompany.
  now destruct (field_is (Company.trigger_type company) value).
Qed.

End Flatten.

(** ** ContactManagement: what every reachable page satisfies *)

Section Synced.
Import ContactManagement.

Lemma keeps_ext s s' :
  searchTerm s' = searchTerm s →
  triggerFilter s' = triggerFilter s →
  validationFilter s' = validationFilter s →
  keeps s' = keeps s ∧ noFilter s' = noFilter s.
Proof.
  intros H1 H2 H3.
  unfold keeps, noFilter, passesSearch, passesTrigger, passesValidation.
  now rewrite H1, H2, H3.
Qed.

Lemma noFilter_keeps s c : noFilter s = true → keeps s c = true.
Proof.
  unfold noFilter, keeps, passesSearch, passesTrigger, passesValidation.
  intros H. apply andb_prop in H. destruct H as [H H3].
  apply andb_prop in H. destruct H as [H1 H2].
  apply negb_true_iff in H1. now rewrite H1, H2, H3.
Qed.

Lemma js_sort_twice (l : list Contact.t) :
  js_sort compareScore (js_sort compareScore l) = js_sort compareScore l.
Proof. apply js_sort_fixes_sorted, js_sort_sorted. Qed.

Lemma incl_ids_perm (sel : list Id) (l l' : list Contact.t) :
  Permutation l' l → incl sel (map Contact.id l) → incl sel (map Contact.id l').
Proof.
  intros Hp Hincl i Hi. apply Hincl in Hi.
  eapply Permutation_in; [|exact Hi]. apply Permutation_map. now symmetry.
Qed.

Lemma filterContacts_synced s :
  is_Some (store s !! contacts s) →
  incl (selectedContacts s) (map Contact.id (contactList s)) →
  loading s = false →
  validating s = false →
  synced (final_state (filterContacts s)).
Proof.
  intros Hwf Hincl Hload Hval.
  destruct (filterContacts_spec s Hwf)
    as (s' & -> & Hview & Hcs & Hr & _ & [Hw _] & Hc & Hsel & Hl & Hv & H1 & H2 & H3).
  cbn. destruct (keeps_ext s s' H1 H2 H3) as [Hk Hn].
  unfold synced. rewrite Hview, Hcs, Hk, Hn, Hsel, Hl, Hv, Hc.
  split; [now rewrite <- Hc|].
  destruct (noFilter s) eqn:E.
  - rewrite !filter_all by (intros c; now apply noFilter_keeps).
    rewrite js_sort_twice. repeat split; try assumption; try tauto.
    eapply incl_ids_perm; [apply js_sort_perm|exact Hincl].
  - repeat split; try assumption; try discriminate.
    intros Heq. rewrite Heq in Hr. destruct Hwf as [l Hl']. congruence.
Qed.

Lemma depsChanged_false prev s :
  depsChanged prev s = false →
  contacts s = contacts prev ∧ searchTerm s = searchTerm prev
  ∧ triggerFilter s = triggerFilter prev ∧ validationFilter s = validationFilter prev.
Proof.
  unfold depsChanged. intros H. apply negb_false_iff in H.
  apply andb_prop in H. destruct H as [H H4].
  apply andb_prop in H. destruct H as [H H3].
  apply andb_prop in H. destruct H as [H1 H2].
  apply Pos.eqb_eq in H1. apply String.eqb_eq in H2, H3, H4. auto.
Qed.

(** A handler followed by its render keeps the page in sync. *)
Lemma dispatch_synced handler s :
  filteredList s = js_sort compareScore (List.filter (keeps s) (contactList s)) →
  (noFilter s = true ↔ filteredContacts s = contacts s) →
  is_Some (store (final_state (handler s)) !! contacts (final_state (handler s))) →
  incl (selectedContacts (final_state (handler s)))
       (map Contact.id (contactList (final_state (handler s)))) →
  loading (final_state (handler s)) = false →
  validating (final_state (handler s)) = false →
  (depsChanged s (final_state (handler s)) = false →
   store (final_state (handler s)) = store s
   ∧ filteredContacts (final_state (handler s)) = filteredContacts s) →
  synced (final_state (dispatch handler s)).
Proof.
  intros Hview Halias Hwf Hincl Hload Hval Hsame.
  rewrite dispatch_final. cbn zeta.
  destruct (depsChanged s (final_state (handler s))) eqn:E.
  - now apply filterContacts_synced.
  - destruct (Hsame eq_refl) as [Hstore Href].
    destruct (depsChanged_false _ _ E) as (Hc & H1 & H2 & H3).
    destruct (keeps_ext _ _ H1 H2 H3) as [Hk Hn].
    unfold synced, filteredList, contactList in *.
    rewrite Hk, Hn, Hstore, Href, Hc in *. repeat split; try assumption; apply Halias.
Qed.

Lemma visible_in_collection s i :
  synced s →
  existsb (strict_eq i) (visibleIds s) = true →
  In i (map Contact.id (contactList s)).
Proof.
  intros (_ & Hview & _) H. apply existsb_strict_eq_In in H.
  unfold visibleIds in H. rewrite Hview in H.
  apply in_map_iff in H. destruct H as (c & <- & Hc). apply in_map.
  apply (Permutation_in _ (js_sort_perm _ _)) in Hc.
  apply filter_In in Hc. tauto.
Qed.

Lemma visibleIds_in_collection s :
  synced s → incl (visibleIds s) (map Contact.id (contactList s)).
Proof.
  intros Hs i Hi. apply (visible_in_collection s i Hs).
  now apply existsb_strict_eq_In.
Qed.

Lemma fetchContacts_flags net s :
  loading (final_state (fetchContacts net s)) = false
  ∧ validating (final_state (fetchContacts net s)) = validating s.
Proof.
  unfold fetchContacts, fetchFailed, alloc, setContactsRef, setStore, setLoading.
  run_handler. case_replies net; auto.
Qed.

Lemma validate_flags net s :
  loading s = false →
  validating s = false →
  loading (final_state (validateSelectedContacts net s)) = false
  ∧ validating (final_state (validateSelectedContacts net s)) = false.
Proof.
  intros Hl Hv.
  unfold validateSelectedContacts, fetchContacts, fetchFailed, alloc, setContactsRef,
    setStore, setLoading, setSelectedContacts, setValidating.
  run_handler. case_replies net; auto.
Qed.

Lemma refetched_settles net s s1 :
  is_Some (store s !! contacts s) →
  refetched net s s1 →
  is_Some (store s1 !! contacts s1) ∧ depsChanged s s1 = true.
Proof.
  intros Hwf (ok & data & companies & _ & _ & Hstore & Hc & _).
  split.
  - rewrite Hstore, Hc, lookup_insert_eq. eauto.
  - unfold depsChanged. rewrite Hc.
    destruct (Pos.eqb_spec (contacts s) (fresh (dom (store s)))) as [E|_];
      [|reflexivity].
    exfalso. apply (is_fresh (dom (store s))). rewrite <- E. now apply elem_of_dom.
Qed.

Lemma step_synced s e : synced s → synced (step s e).
Proof.
  intros Hs. pose proof Hs as (Hwf & Hview & Halias & Hincl & Hload & Hval).
  unfold step. destruct e as [v|v|v| |i| |net]; cbn [handle].
  - apply dispatch_synced; first [exact Hview|exact Halias|exact Hwf|exact Hincl|exact Hload|exact Hval|auto].
  - apply dispatch_synced; first [exact Hview|exact Halias|exact Hwf|exact Hincl|exact Hload|exact Hval|auto].
  - apply dispatch_synced; first [exact Hview|exact Halias|exact Hwf|exact Hincl|exact Hload|exact Hval|auto].
  - apply dispatch_synced; first [exact Hview|exact Halias|exact Hwf|exact Hincl|exact Hload|exact Hval|auto].
  - rewrite final_get.
    destruct (existsb (strict_eq i) (visibleIds s)) eqn:E; [|exact Hs].
    apply dispatch_synced; try exact Hview; try exact Halias;
      unfold handleSelectContact, setSelectedContacts; run_handler;
      destruct (isSelected s i); simpl; auto.
    + intros j Hj. apply filter_In in Hj. apply Hincl. tauto.
    + intros j Hj. apply in_app_iff in Hj. destruct Hj as [Hj|[<-|[]]]; [now apply Hincl|].
      exact (visible_in_collection s _ Hs E).
  - rewrite final_get.
    apply dispatch_synced; try exact Hview; try exact Halias;
      unfold handleSelectAll, setSelectedContacts; run_handler;
      destruct (selectAllChecked s); simpl; auto.
    + intros j [].
    + exact (visibleIds_in_collection s Hs).
  - destruct (validate_flags net s Hload Hval) as [Hl Hv].
    pose proof (validate_final net s) as H. cbn zeta in H.
    destruct H as [[(H1 & H2 & H3 & _) Hsame]|[[(H1 & H2 & H3 & _)|H] Hnil]].
    + apply (dispatch_synced _ _ Hview Halias); auto.
      * now rewrite H1, H2.
      * unfold contactList. now rewrite Hsame, H1, H2.
    + apply (dispatch_synced _ _ Hview Halias); auto.
      * now rewrite H1, H2.
      * rewrite Hnil. intros j [].
    + destruct (refetched_settles _ _ _ Hwf H) as [Hw Hd].
      apply (dispatch_synced _ _ Hview Halias); auto.
      * rewrite Hnil. intros j [].
      * congruence.
Qed.

Lemma mounted_synced net : synced (mounted net).
Proof.
  unfold mounted, mount.
  destruct (filterContacts_spec initial)
    as (s0 & E0 & Hview & Hcs & Hr & _ & [Hw _] & Hc & Hsel & _ & Hv & H1 & H2 & H3);
    [cbn; eauto|].
  unfold mbind at 1, M_bind at 1. rewrite E0.
  change (contactList initial) with (@nil Contact.t) in *.
  change (noFilter initial) with true in *. simpl in Hview, Hcs.
  assert (Hs : synced (final_state (dispatch (fetchContacts net) s0))).
  { destruct (fetchContacts_flags net s0) as [Hl Hv'].
    assert (Hview0 : filteredList s0
                     = js_sort compareScore (List.filter (keeps s0) (contactList s0)))
      by now rewrite Hview, Hcs.
    assert (Halias0 : noFilter s0 = true ↔ filteredContacts s0 = contacts s0).
    { destruct (keeps_ext initial s0 H1 H2 H3) as [_ ->]. rewrite Hr, Hc. tauto. }
    pose proof (fetchContacts_final net s0) as [Hsel' [(A & B & C & _)|H]];
      cbn zeta in *.
    - apply (dispatch_synced _ _ Hview0 Halias0).
      + now rewrite A, B.
      + rewrite Hsel', Hsel. intros j [].
      + exact Hl.
      + now rewrite Hv', Hv.
      + auto.
    - destruct (refetched_settles _ _ _ Hw H) as [Hw' Hd].
      apply (dispatch_synced _ _ Hview0 Halias0).
      + exact Hw'.
      + rewrite Hsel', Hsel. intros j [].
      + exact Hl.
      + now rewrite Hv', Hv.
      + congruence. }
  now destruct (dispatch (fetchContacts net) s0) as [[[] s1] e1].
Qed.

Lemma run_synced net events : synced (run net events).
Proof.
  unfold run. generalize (mounted_synced net). generalize (mounted net).
  induction events as [|e events IH]; intros s Hs; [exact Hs|].
  simpl. apply IH. now apply step_synced.
Qed.

(** X12.  In every state the page reaches, the view is in step with the
    collection and the criteria: it is the list of the contacts of the
    collection that pass the criteria, sorted by descending score. *)
Theorem view_always_in_sync net events :
  let s := run net events in
  filteredList s = js_sort compareScore (List.filter (keeps s) (contactList s)).
Proof. apply (run_synced net events). Qed.


(** X14.  In every state the page reaches, the view and the collection are
    one and the same array exactly when no criterion is active; so it is
    in these states, and only in these, that sorting the view reorders the
    collection. *)
Theorem view_aliases_collection_without_criteria net events :
  let s := run net events in
  noFilter s = true ↔ filteredContacts s = contacts s.
Proof. apply (run_synced net events). Qed.

(** X15.  After Clear Filters, whatever happened before, no criterion is
    active and every contact of the collection is on display: the view is a
    permutation of the collection. *)
Theorem clear_filters_shows_everything net events :
  let s := run net (events ++ [ClearFilters]) in
  searchTerm s = "" ∧ triggerFilter s = "all" ∧ validationFilter s = "all"
  ∧ Permutation (filteredList s) (contactList s)
  ∧ length (visibleIds s) = length (contactList s).
Proof.
  intros s.
  assert (Hfilters : searchTerm s = "" ∧ triggerFilter s = "all"
                     ∧ validationFilter s = "all").
  { subst s. unfold run. rewrite fold_left_app. simpl.
    set (s0 := fold_left step events (mounted net)).
    assert (Hs0 : synced s0) by apply (run_synced net events).
    unfold step. cbn [handle]. rewrite dispatch_final. cbn zeta.
    set (s1 := final_state _).
    assert (H1 : searchTerm s1 = "" ∧ triggerFilter s1 = "all"
                 ∧ validationFilter s1 = "all" ∧ store s1 = store s0
                 ∧ contacts s1 = contacts s0) by (repeat split).
    destruct H1 as (A & B & C & D & E).
    destruct (depsChanged s0 s1); [|auto].
    destruct (filterContacts_spec s1) as (s' & -> & H).
    { rewrite D, E. apply Hs0. }
    cbn. destruct H as (_ & _ & _ & _ & _ & _ & _ & _ & _ & H1 & H2 & H3).
    now rewrite H1, H2, H3. }
  destruct Hfilters as (A & B & C). repeat split; try assumption.
  - destruct (run_synced net (events ++ [ClearFilters])) as (_ & Hview & _).
    fold s in Hview. rewrite Hview, js_sort_perm.
    rewrite filter_all; [reflexivity|].
    intros c. apply noFilter_keeps. unfold noFilter. now rewrite A, B, C.
  - destruct (run_synced net (events ++ [ClearFilters])) as (_ & Hview & _).
    fold s in Hview. unfold visibleIds. rewrite length_map, Hview.
    rewrite (Permutation_length (js_sort_perm _ _)).
    rewrite filter_all; [reflexivity|].
    intros c. apply noFilter_keeps. unfold noFilter. now rewrite A, B, C.
Qed.

End Synced.

(** ** ContactManagement: fetching, validating, filtering *)

Section ContactHandlers.
Import ContactManagement.
Variable net : Net.

(** X16.  [fetchContacts] always clears the spinner and never touches the
    selection, the criteria or the view.  A response that is not ok, or
    whose body does not report success, is dropped without any message and
    without any change to the collection.  A failed request, or a body that
    reports success without a company list, shows an error message and
    leaves the collection as it was.  Otherwise the collection becomes a
    new array with the flattened contacts of the reply, and the arrays that
    existed before are left as they were. *)
Theorem contacts_fetch_outcomes s :
  let r := fetchContacts net s in
  let s' := final_state r in
  loading s' = false
  ∧ selectedContacts s' = selectedContacts s
  ∧ filteredContacts s' = filteredContacts s
  ∧ searchTerm s' = searchTerm s
  ∧ triggerFilter s' = triggerFilter s
  ∧ validationFilter s' = validationFilter s
  ∧ List.filter is_fetch (effects r) = [Fetch companiesRequest]
  ∧ match net companiesRequest with
    | Reply true data =>
        if success data then
          match data_companies data with
          | Some companies =>
              contactList s' = flattenContacts companies
              ∧ (∀ x, is_Some (store s !! x) → store s' !! x = store s !! x)
              ∧ effects r = [Fetch companiesRequest]
          | None =>
              store s' = store s ∧ contacts s' = contacts s
              ∧ ∃ t, In (Toast t) (effects r) ∧ destructive t = true
          end
        else
          store s' = store s ∧ contacts s' = contacts s
          ∧ effects r = [Fetch companiesRequest]
    | Reply false _ =>
        store s' = store s ∧ contacts s' = contacts s
        ∧ effects r = [Fetch companiesRequest]
    | NetworkFailure =>
        store s' = store s ∧ contacts s' = contacts s
        ∧ ∃ t, In (Toast t) (effects r) ∧ destructive t = true
    end.
Proof.
  unfold fetchContacts, fetchFailed, alloc, setContactsRef, setStore, setLoading,
    companiesRequest.
  run_handler.
  destruct (net (GetCompanies 100)) as [|[] data]; simpl.
  - repeat split. eexists. split; [right; right; left; reflexivity|reflexivity].
  - destruct (success data); simpl; [|repeat split].
    destruct (data_companies data) as [companies|]; simpl.
    + repeat split.
      * unfold contactList, elems. simpl. now rewrite lookup_insert_eq.
      * intros x Hx. apply lookup_insert_ne. intros <-.
        apply (is_fresh (dom (store s))). now apply elem_of_dom.
    + repeat split. eexists. split; [right; right; left; reflexivity|reflexivity].
  - repeat split.
Qed.

(** X17.  With nothing selected, [validateSelectedContacts] shows an error
    message and returns: no request is sent and no cell changes. *)
Theorem validate_requires_selection s :
  selectedContacts s = [] →
  validateSelectedContacts net s
  = (tt, s, [Toast (error_toast "Please select contacts to validate")]).
Proof.
  intros Hsel. unfold validateSelectedContacts. run_handler. now rewrite Hsel.
Qed.

End ContactHandlers.

Lemma validate_requires_selection_witness :
  final_state (ContactManagement.validateSelectedContacts acceptAll
                 (pageWith [ann; bob] "" "all" "all"))
  = pageWith [ann; bob] "" "all" "all".
Proof.
  now rewrite (validate_requires_selection acceptAll (pageWith [ann; bob] "" "all" "all")).
Defined.

Section FilterMore.
Import ContactManagement.

(** X18.  [filterContacts] never adds or drops a contact: the collection
    after the call is a permutation of the collection before it, every
    contact of the view is a contact of the collection that passes the
    criteria, so the view is never longer than the collection, and with no
    active criterion the view is a permutation of the whole collection. *)
Theorem filterContacts_shows_part_of_collection s :
  is_Some (store s !! contacts s) →
  let s' := final_state (filterContacts s) in
  Permutation (contactList s') (contactList s)
  ∧ (∀ c, In c (filteredList s') ↔ In c (contactList s) ∧ keeps s c = true)
  ∧ (length (filteredList s') <= length (contactList s))%nat
  ∧ (noFilter s = true → Permutation (filteredList s') (contactList s)).
Proof.
  intros Hwf.
  destruct (filterContacts_spec s Hwf) as (s' & -> & Hview & Hcs & _).
  cbn. rewrite Hview, Hcs. split; [|split; [|split]].
  - destruct (noFilter s); [apply js_sort_perm|reflexivity].
  - intros c. rewrite <- filter_In. split; apply Permutation_in.
    + apply js_sort_perm.
    + symmetry. apply js_sort_perm.
  - rewrite (Permutation_length (js_sort_perm _ _)). apply List.filter_length_le.
  - intros Hno. rewrite js_sort_perm.
    rewrite filter_all; [reflexivity|]. intros c. now apply noFilter_keeps.
Qed.

(** X19.  Running [filterContacts] again changes neither the view nor the
    collection: the second run finds both as the first run left them. *)
Theorem filterContacts_twice s :
  is_Some (store s !! contacts s) →
  let s1 := final_state (filterContacts s) in
  let s2 := final_state (filterContacts s1) in
  filteredList s2 = filteredList s1 ∧ contactList s2 = contactList s1.
Proof.
  intros Hwf.
  destruct (filterContacts_spec s Hwf)
    as (s1 & E1 & Hview & Hcs & _ & _ & [Hw _] & _ & _ & _ & _ & H1 & H2 & H3).
  rewrite E1. cbn.
  destruct (filterContacts_spec s1 Hw) as (s2 & -> & Hview2 & Hcs2 & _).
  cbn. destruct (keeps_ext s s1 H1 H2 H3) as [Hk Hn].
  rewrite Hview2, Hcs2, Hview, Hcs, Hk, Hn.
  destruct (noFilter s) eqn:E.
  - rewrite !filter_all by (intros c; now apply noFilter_keeps).
    now rewrite js_sort_twice.
  - auto.
Qed.

(** X20.  Select-all on the contact page is scoped to the view: it replaces
    the selection, whatever it held, by the identifiers of the rows on
    display, so that every row shows ticked and the control shows checked
    exactly when the view is not empty; clearing it empties the
    selection. *)
Theorem select_all_is_scoped_to_view s :
  let on := final_state (handleSelectAll true s) in
  let off := final_state (handleSelectAll false s) in
  selectedContacts on = visibleIds s
  ∧ length (selectedContacts on) = length (filteredList s)
  ∧ (∀ c, In c (filteredList s) → isSelected on (Contact.id c) = true)
  ∧ selectAllChecked on = Nat.ltb 0 (length (filteredList s))
  ∧ selectedContacts off = []
  ∧ selectAllChecked off = false.
Proof.
  unfold handleSelectAll, setSelectedContacts, selectAllChecked, isSelected, visibleIds,
    filteredList.
  run_handler. repeat split.
  - apply length_map.
  - intros c Hc. apply existsb_strict_eq_In. now apply in_map.
  - now rewrite length_map, Nat.eqb_refl.
  - now destruct (length _).
Qed.

End FilterMore.

Lemma filterContacts_shows_part_of_collection_witness :
  let s := pageWith [ann; bob; cat] "" "all" "all" in
  Permutation (ContactManagement.filteredList
                 (final_state (ContactManagement.filterContacts s)))
              [ann; bob; cat].
Proof.
  apply (filterContacts_shows_part_of_collection (pageWith [ann; bob; cat] "" "all" "all")).
  - vm_compute. eauto.
  - reflexivity.
Defined.

Lemma filterContacts_twice_witness :
  let s1 := final_state (ContactManagement.filterContacts
                           (pageWith [ann; bob; cat] "" "all" "all")) in
  ContactManagement.contactList (final_state (ContactManagement.filterContacts s1))
  = ContactManagement.contactList s1.
Proof.
  apply (filterContacts_twice (pageWith [ann; bob; cat] "" "all" "all")).
  vm_compute. eauto.
Defined.

(** ** ContactManagement: the validation badge *)

Lemma badgeOf_cases (mode : string) :
  In mode ["valid"; "invalid"; "risky"] →
  badgeOf mode ≠ Unvalidated ∧ badgeOf mode ≠ Unknown
  ∧ ∀ result, badgeOf result = badgeOf mode → result = mode.
Proof.
  intros Hmode. simpl in Hmode.
  destruct Hmode as [<-|[<-|[<-|[]]]]; (split; [discriminate|split; [discriminate|]]);
    intros result; unfold badgeOf;
    destruct (String.eqb_spec result "valid") as [->|_]; try discriminate; auto;
    destruct (String.eqb_spec result "invalid") as [->|_]; try discriminate; auto;
    destruct (String.eqb_spec result "risky") as [->|_]; try discriminate; auto.
Qed.

(** X21.  The badge and the result filter read the contact differently.  A
    contact carries the badge of a result (valid, invalid or risky) exactly
    when it is validated and has this result, and Unvalidated exactly when
    it is not validated; the filter by that result keeps it whenever it has
    the result.  So every contact with the badge passes the filter, and a
    contact that passes the filter shows either that badge or
    Unvalidated. *)
Theorem badge_and_result_filter (contact : Contact.t) (mode : string) :
  In mode ["valid"; "invalid"; "risky"] →
  (getValidationBadge contact = badgeOf mode
   ↔ Contact.email_validated contact = true
     ∧ Contact.email_validation_result contact = Some mode)
  ∧ (getValidationBadge contact = Unvalidated
     ↔ Contact.email_validated contact = false)
  ∧ (getValidationBadge contact = badgeOf mode →
     ContactManagement.matchesResult mode contact = true)
  ∧ (ContactManagement.matchesResult mode contact = true →
     getValidationBadge contact = badgeOf mode
     ∨ getValidationBadge contact = Unvalidated).
Proof.
  intros Hmode. destruct (badgeOf_cases mode Hmode) as (Hu & Hk & Hinj).
  assert (Hbadge : getValidationBadge contact
                   = if negb (Contact.email_validated contact) then Unvalidated
                     else match Contact.email_validation_result contact with
                          | Some result => badgeOf result
                          | None => Unknown
                          end) by reflexivity.
  assert (Hmatch : ContactManagement.matchesResult mode contact = true
                   ↔ Contact.email_validation_result contact = Some mode).
  { unfold ContactManagement.matchesResult, ContactManagement.field_is.
    destruct (Contact.email_validation_result contact) as [v|].
    - rewrite String.eqb_eq. split; congruence.
    - split; discriminate. }
  assert (Hnu : ∀ result, badgeOf result ≠ Unvalidated).
  { intros result. unfold badgeOf. repeat (destruct (String.eqb _ _)); discriminate. }
  rewrite Hbadge, Hmatch.
  destruct (Contact.email_validated contact); simpl;
    destruct (Contact.email_validation_result contact) as [v|]; simpl;
    try (pose proof (Hinj v); pose proof (Hnu v));
    intuition (subst; try discriminate; try congruence; auto).
Qed.

Lemma badge_and_result_filter_witness :
  getValidationBadge cat = Unvalidated
  ∧ ContactManagement.matchesResult "valid" cat = true
  ∧ getValidationBadge ann = Valid.
Proof.
  destruct (badge_and_result_filter ann "valid") as (H & _);
    [simpl; auto|].
  split; [reflexivity|split; [reflexivity|]].
  apply H. split; reflexivity.
Defined.

(** ** LeadDiscovery: outcomes, options and requests *)

Section DiscoverMore.
Import LeadDiscovery.
Variable net : Net.

(** X22.  With a trigger type selected, [discoverLeads] sends one request
    with the trigger types and the limit of the state, and leaves both as
    they are.  A reply that reports success replaces the whole list of
    companies by the companies of the reply (by the empty list when the
    reply has none); any other outcome leaves the list as it was and shows
    an error message.  The busy flag is cleared in every case. *)
Theorem discover_replaces_or_keeps_companies s :
  triggerTypes s ≠ [] →
  let request := PostDiscover (triggerTypes s) (limitPerType s) in
  let r := discoverLeads net s in
  List.filter is_fetch (effects r) = [Fetch request]
  ∧ triggerTypes (final_state r) = triggerTypes s
  ∧ limitPerType (final_state r) = limitPerType s
  ∧ isDiscovering (final_state r) = false
  ∧ match net request with
    | Reply _ data =>
        if success data then
          discoveredCompanies (final_state r) = or_nil (data_companies data)
        else
          discoveredCompanies (final_state r) = discoveredCompanies s
          ∧ ∃ t, In (Toast t) (effects r) ∧ destructive t = true
    | NetworkFailure =>
        discoveredCompanies (final_state r) = discoveredCompanies s
        ∧ ∃ t, In (Toast t) (effects r) ∧ destructive t = true
    end.
Proof.
  intros Hsome.
  unfold discoverLeads, setIsDiscovering, setDiscoveredCompanies. run_handler.
  destruct (triggerTypes s) as [|t ts] eqn:E; [done|]. simpl.
  destruct (net _) as [|ok data]; simpl.
  - repeat split; try (now rewrite E).
    eexists. split; [right; left; reflexivity|reflexivity].
  - destruct (success data); simpl.
    + repeat split; now rewrite E.
    + repeat split; try (now rewrite E).
      eexists. split; [right; left; reflexivity|reflexivity].
Qed.

End DiscoverMore.

Lemma discover_replaces_or_keeps_companies_witness :
  LeadDiscovery.discoveredCompanies
    (final_state (LeadDiscovery.discoverLeads acmeBackend LeadDiscovery.initial))
  = [].
Proof.
  destruct (discover_replaces_or_keeps_companies acmeBackend LeadDiscovery.initial)
    as (_ & _ & _ & _ & H).
  - discriminate.
  - exact H.
Defined.

Section DiscoveryPage.
Import LeadDiscovery.

Lemma existsb_eqb_In (x : string) (l : list string) :
  existsb (String.eqb x) l = true ↔ In x l.
Proof.
  rewrite existsb_exists. split.
  - intros (y & Hy & E). apply String.eqb_eq in E. now subst.
  - intros H. exists x. split; [exact H|apply String.eqb_refl].
Qed.

Lemma remove_option_spec (o : string) (l : list string) :
  ∀ x, In x (List.filter (λ t, negb (String.eqb t o)) l) ↔ In x l ∧ x ≠ o.
Proof.
  intros x. rewrite filter_In, negb_true_iff. split; intros [H1 H2]; split; auto.
  - intros ->. now rewrite String.eqb_refl in H2.
  - now apply String.eqb_neq.
Qed.

(** What a click on an option does to the list of trigger types. *)
Lemma clickOption_types o s :
  triggerTypes (final_state (Discovery.clickOption o s))
  = (if Discovery.isChecked s o
     then List.filter (λ t, negb (String.eqb t o)) (triggerTypes s)
     else triggerTypes s ++ [o])
  ∧ limitPerType (final_state (Discovery.clickOption o s)) = limitPerType s
  ∧ isDiscovering (final_state (Discovery.clickOption o s)) = isDiscovering s.
Proof.
  unfold Discovery.clickOption, handleTriggerChange, setTriggerTypes. run_handler.
  now destruct (Discovery.isChecked s o).
Qed.

(** X23.  Clicking an option twice gives back the same trigger types, up to
    their order: an option that was unticked is added and removed again,
    which restores the list; an option that was ticked is removed and added
    at the end. *)
Theorem click_option_twice o s :
  List.NoDup (triggerTypes s) →
  let s2 := final_state (Discovery.clickOption o
                           (final_state (Discovery.clickOption o s))) in
  Permutation (triggerTypes s2) (triggerTypes s)
  ∧ (Discovery.isChecked s o = false → triggerTypes s2 = triggerTypes s)
  ∧ ∀ x, Discovery.isChecked s2 x = Discovery.isChecked s x.
Proof.
  intros Hnd s2.
  assert (Hkeep : ∀ l : list string, ¬ In o l →
                    List.filter (λ t, negb (String.eqb t o)) l = l).
  { induction l as [|t l IH]; simpl; intros Hl; [reflexivity|].
    destruct (String.eqb_spec t o) as [->|_]; simpl.
    - destruct Hl. now left.
    - rewrite IH; [reflexivity|]. intros H. apply Hl. now right. }
  assert (Htypes : triggerTypes s2
                   = if Discovery.isChecked s o
                     then List.filter (λ t, negb (String.eqb t o)) (triggerTypes s) ++ [o]
                     else triggerTypes s).
  { subst s2. destruct (clickOption_types o s) as (H1 & _).
    destruct (clickOption_types o (final_state (Discovery.clickOption o s))) as (H2 & _).
    rewrite H2. unfold Discovery.isChecked at 1. rewrite H1.
    destruct (Discovery.isChecked s o) eqn:E.
    - assert (Hno : existsb (String.eqb o)
                      (List.filter (λ t, negb (String.eqb t o)) (triggerTypes s)) = false).
      { apply not_true_iff_false. rewrite existsb_eqb_In, remove_option_spec. tauto. }
      now rewrite Hno.
    - assert (Hyes : existsb (String.eqb o) (triggerTypes s ++ [o]) = true).
      { apply existsb_eqb_In, in_app_iff. right. now left. }
      rewrite Hyes, List.filter_app. simpl. rewrite String.eqb_refl. simpl.
      rewrite app_nil_r. apply Hkeep.
      intros Hin. apply existsb_eqb_In in Hin. unfold Discovery.isChecked in E.
      congruence. }
  assert (Hperm : Permutation (triggerTypes s2) (triggerTypes s)).
  { rewrite Htypes. destruct (Discovery.isChecked s o) eqn:E; [|reflexivity].
    apply Stdlib.Sorting.Permutation.NoDup_Permutation.
    - apply NoDup_snoc; [now apply List.NoDup_filter|].
      rewrite remove_option_spec. tauto.
    - exact Hnd.
    - intros x. rewrite in_app_iff, remove_option_spec. simpl.
      apply existsb_eqb_In in E.
      destruct (String.eqb_spec x o) as [->|Hne]; intuition congruence. }
  split; [exact Hperm|split].
  - intros E. now rewrite Htypes, E.
  - intros x. unfold Discovery.isChecked.
    apply eq_true_iff_eq. rewrite !existsb_eqb_In.
    split; apply Permutation_in; [exact Hperm|now symmetry].
Qed.

(** The invariant of the page, with the log of its effects. *)
Let good (acc : State * list Effect) : Prop :=
  List.NoDup (triggerTypes (fst acc))
  ∧ incl (triggerTypes (fst acc)) Discovery.triggerOptions
  ∧ limitPerType (fst acc) ≠ 0%Z
  ∧ isDiscovering (fst acc) = false
  ∧ ∀ types limit,
      In (Fetch (PostDiscover types limit)) (snd acc) →
      types ≠ [] ∧ List.NoDup types ∧ incl types Discovery.triggerOptions
      ∧ limit ≠ 0%Z.

Lemma or_int_nonzero (n : option Z) (d : Z) : d ≠ 0%Z → or_int n d ≠ 0%Z.
Proof.
  intros Hd. unfold or_int. destruct n as [v|]; [|exact Hd].
  now destruct (Z.eqb_spec v 0).
Qed.

(** The request, and the cells that [discoverLeads] leaves alone. *)
Lemma discoverLeads_frame net s :
  triggerTypes s ≠ [] →
  List.filter is_fetch (effects (discoverLeads net s))
  = [Fetch (PostDiscover (triggerTypes s) (limitPerType s))]
  ∧ triggerTypes (final_state (discoverLeads net s)) = triggerTypes s
  ∧ limitPerType (final_state (discoverLeads net s)) = limitPerType s
  ∧ isDiscovering (final_state (discoverLeads net s)) = false.
Proof.
  intros Hsome.
  unfold discoverLeads, setIsDiscovering, setDiscoveredCompanies. run_handler.
  destruct (triggerTypes s) as [|t ts] eqn:E; [done|]. simpl.
  destruct (net _) as [|ok data]; simpl; [|destruct (success data); simpl];
    repeat split; now rewrite E.
Qed.

Lemma handle_good e acc :
  good acc →
  good (final_state (Discovery.handle e (fst acc)),
        snd acc ++ effects (Discovery.handle e (fst acc))).
Proof.
  destruct acc as [s log]. unfold good. simpl.
  intros (Hnd & Hincl & Hlim & Hbusy & Hlog).
  destruct e as [o|v|net]; cbn [Discovery.handle].
  - destruct (existsb (String.eqb o) Discovery.triggerOptions) eqn:Eo.
    + destruct (clickOption_types o s) as (H1 & H2 & H3).
      rewrite H1, H2, H3.
      assert (Hlog' : effects (Discovery.clickOption o s) = []).
      { unfold Discovery.clickOption, handleTriggerChange, setTriggerTypes.
        run_handler. now destruct (Discovery.isChecked s o). }
      rewrite Hlog', app_nil_r.
      split; [|split; [|split; [|split]]]; try assumption.
      * destruct (Discovery.isChecked s o) eqn:E.
        -- now apply List.NoDup_filter.
        -- apply NoDup_snoc; [exact Hnd|].
           intros Hin. apply existsb_eqb_In in Hin.
           unfold Discovery.isChecked in E. congruence.
      * destruct (Discovery.isChecked s o).
        -- intros x Hx. apply remove_option_spec in Hx. apply Hincl. tauto.
        -- intros x Hx. apply in_app_iff in Hx.
           destruct Hx as [Hx|[<-|[]]]; [now apply Hincl|].
           now apply existsb_eqb_In.
    + rewrite app_nil_r. auto.
  - unfold onLimitChange, setLimitPerType. run_handler. rewrite app_nil_r.
    split; [|split; [|split; [|split]]]; try assumption.
    now apply or_int_nonzero.
  - rewrite final_get.
    assert (Heff : effects ((get ≫= λ s0, if Discovery.discoverDisabled s0
                                          then skip else discoverLeads net) s)
                   = effects ((if Discovery.discoverDisabled s
                               then skip else discoverLeads net) s)).
    { unfold mbind, M_bind, get, effects.
      now destruct ((if Discovery.discoverDisabled s then skip else discoverLeads net) s)
        as [[b s2] e2]. }
    rewrite Heff. clear Heff.
    unfold Discovery.discoverDisabled. rewrite Hbusy. simpl.
    destruct (Nat.eqb (length (triggerTypes s)) 0) eqn:E.
    + simpl. rewrite app_nil_r. auto.
    + assert (Hsome : triggerTypes s ≠ []).
      { intros H. rewrite H in E. discriminate E. }
      destruct (discoverLeads_frame net s Hsome) as (Hf & Ht & Hl & Hb).
      rewrite Ht, Hl, Hb.
      split; [|split; [|split; [|split]]]; try assumption; try reflexivity.
      intros types limit Hin. apply in_app_iff in Hin.
      destruct Hin as [Hin|Hin]; [now apply Hlog|].
      assert (Hreq : In (Fetch (PostDiscover types limit))
                        (List.filter is_fetch (effects (discoverLeads net s))))
        by (apply filter_In; split; [exact Hin|reflexivity]).
      rewrite Hf in Hreq. destruct Hreq as [Hreq|[]].
      injection Hreq as <- <-. auto.
Qed.

Lemma run_good events : good (Discovery.run events).
Proof.
  unfold Discovery.run.
  assert (H0 : good (initial, [])).
  { unfold good. simpl. split; [|split; [|split; [|split]]].
    - repeat constructor; simpl; intuition discriminate.
    - intros x Hx. exact Hx.
    - discriminate.
    - reflexivity.
    - intros types limit []. }
  revert H0. generalize (initial, @nil Effect).
  induction events as [|e events IH]; intros acc Hacc; [exact Hacc|].
  simpl. apply IH. now apply handle_good.
Qed.

(** X24.  Whatever the user clicks and types, every discovery request of
    the page carries at least one trigger type, no trigger type twice, only
    the identifiers of the three options, and a limit other than 0; and
    between two events the list of trigger types has no repetition. *)
Theorem discovery_requests_are_well_formed events :
  let page := fst (Discovery.run events) in
  let log := snd (Discovery.run events) in
  List.NoDup (triggerTypes page)
  ∧ incl (triggerTypes page) Discovery.triggerOptions
  ∧ limitPerType page ≠ 0%Z
  ∧ ∀ types limit,
      In (Fetch (PostDiscover types limit)) log →
      types ≠ [] ∧ List.NoDup types ∧ incl types Discovery.triggerOptions
      ∧ limit ≠ 0%Z.
Proof.
  destruct (run_good events) as (H1 & H2 & H3 & _ & H4). auto.
Qed.

End DiscoveryPage.

Lemma click_option_twice_witness :
  LeadDiscovery.triggerTypes
    (final_state (Discovery.clickOption "hiring"
       (final_state (Discovery.clickOption "hiring"
          (final_state (Discovery.clickOption "hiring" LeadDiscovery.initial))))))
  = ["funding"; "outdated_tech"].
Proof.
  apply (click_option_twice "hiring"
           (final_state (Discovery.clickOption "hiring" LeadDiscovery.initial))).
  - vm_compute. repeat constructor; simpl; intuition discriminate.
  - reflexivity.
Defined.

(** ** Navbar *)

(** X25.  For every path at most one item of the navigation bar is shown as
    active; on the path of an item it is that item, and on any other path
    (a path without a route, say) none is. *)
Theorem at_most_one_active_item (pathname : string) :
  (length (Navbar.activeItems pathname) <= 1)%nat
  ∧ (∀ item, In item Navbar.navItems →
             Navbar.activeItems (Navbar.path item) = [item])
  ∧ (¬ In pathname (map Navbar.path Navbar.navItems) →
     Navbar.activeItems pathname = []).
Proof.
  split; [|split].
  - unfold Navbar.activeItems, Navbar.navItems, Navbar.isActive. simpl.
    repeat (match goal with
            | |- context [String.eqb pathname ?p] =>
                destruct (String.eqb_spec pathname p); subst
            end; simpl); try lia; discriminate.
  - intros item Hitem. simpl in Hitem.
    destruct Hitem as [<-|[<-|[<-|[<-|[<-|[]]]]]]; reflexivity.
  - intros Hno. unfold Navbar.activeItems, Navbar.navItems, Navbar.isActive. simpl.
    repeat (match goal with
            | |- context [String.eqb pathname ?p] =>
                destruct (String.eqb_spec pathname p);
                [exfalso; apply Hno; subst; simpl; tauto|]
            end; simpl).
    reflexivity.
Qed.

Lemma at_most_one_active_item_witness :
  Navbar.activeItems "/analytics" = [].
Proof.
  apply (at_most_one_active_item "/analytics").
  simpl. intuition discriminate.
Defined.

(** ** LeadDiscovery: the limit input shows what is stored *)

Section LimitRoundTrip.
Import LeadDiscovery.











End LimitRoundTrip.


(** ** Witnesses of the properties above *)

Lemma generate_requires_selection_witness :
  runHandler (Campaign.generateEmails (λ _, Campaign.NetworkFailure)) EmailCampaigns.initial
  = (tt, EmailCampaigns.initial,
     [Campaign.Toast (error_toast "Please select contacts to generate emails for")]).
Proof.
  apply (generate_requires_selection (λ _, Campaign.NetworkFailure) EmailCampaigns.initial).
  reflexivity.
Defined.

Lemma generate_replaces_or_keeps_batch_witness :
  EmailCampaigns.generatedEmails
    (state_after (runHandler (Campaign.generateEmails (λ _, Campaign.NetworkFailure))
                    (sampleCampaign true)))
  = [sampleEmail 1; sampleEmail 7].
Proof.
  destruct (generate_replaces_or_keeps_batch (λ _, Campaign.NetworkFailure)
              (sampleCampaign true)) as (_ & _ & _ & _ & H & _).
  - discriminate.
  - exact H.
Defined.

Lemma dry_run_then_live_run_witness :
  let s1 := final_state (EmailCampaigns.sendEmails refuseAll (sampleCampaign true)) in
  let s2 := final_state (EmailCampaigns.setTestMode false s1) in
  EmailCampaigns.generatedEmails (final_state (EmailCampaigns.sendEmails acceptAll s2)) = []
  ∧ EmailCampaigns.selectedContacts (final_state (EmailCampaigns.sendEmails acceptAll s2)) = [].
Proof.
  destruct (dry_run_then_live_run refuseAll acceptAll (sampleCampaign true))
    as (_ & _ & H1 & H2).
  - discriminate.
  - reflexivity.
  - eexists _, _. split; reflexivity.
  - split; [exact H1|exact H2].
Defined.

